(** * Janeway: the LogList line buffer, sanitize, scroll and extractLineInfo

    Shallow embedding of [lib/log_list.js] (the [LogList] class) and of
    [JanewayClass#scroll] and [JanewayClass#extractLineInfo] from
    [lib/init.js].

    JavaScript strings are sequences of UTF-16 code units, modelled as
    [list Z].  LogLine objects live in a heap ([gmap nat LogLine]) and the
    array [this.list] holds references to them, because the code shares
    the same object between [this.list] and [this.selectedLine].  Calls to
    the blessed box and to the Janeway instance are recorded in a trace of
    [Effect]s. *)

From Stdlib Require Import ZArith QArith.
From Stdlib Require String Ascii.
Import String.StringSyntax.
From stdpp Require Import base gmap list sorting.

Abbreviation jsstring := (list Z).

(** ** Sanitize (LogList#sanitize) *)

(** [str.replace(/\n/g, '⏎ ')]: each U+000A becomes U+23CE followed
    by a space. *)
Definition sanitize (str : jsstring) : jsstring :=
  flat_map (fun c => if Z.eqb c 10 then [9166%Z; 32%Z] else [c]) str.

(** ** Data model *)

(** A LogLine object.  [text] is what [line.toString()] returns (LogLine
    lives outside log_list.js); [children] are references to the child
    LogLine objects. *)
Record LogLine := mkLogLine {
  index : Z;
  text : jsstring;
  selected : bool;
  children : list nat
}.

Definition set_index (i : Z) (l : LogLine) : LogLine :=
  mkLogLine i (text l) (selected l) (children l).

Definition set_selected (b : bool) (l : LogLine) : LogLine :=
  mkLogLine (index l) (text l) b (children l).

(** Calls made on the blessed box ([box.setLine], [box.insertLine],
    [box.deleteLine], [box.setContent]), on the throttled [this.render] and
    on [janeway.scrollAlong(or_render)] ([None] = called without argument). *)
Inductive Effect :=
| SetLine (i : Z) (s : jsstring)
| InsertLine (i : Z) (s : jsstring)
| DeleteLine (i : Z)
| SetContent (s : jsstring)
| Render
| ScrollAlong (or_render : option bool).

(** A LogList instance.  [lines] is [this.list] (references into [heap]);
    [list_selectedLine] is the property [this.list.selectedLine] of that
    array, which is distinct from [this.selectedLine]; [scrollDown] is
    [this.janeway.scrollDown]; [pending] are the lines whose
    [setImmediate(deferAndRenderLine)] callback has not run yet. *)
Record LogList := mkLogList {
  heap : gmap nat LogLine;
  lines : list nat;
  selectedLine : option nat;
  list_selectedLine : option nat;
  scrollDown : bool;
  pending : list nat;
  effects : list Effect
}.

Definition set_heap (h : gmap nat LogLine) (s : LogList) : LogList :=
  mkLogList h (lines s) (selectedLine s) (list_selectedLine s)
    (scrollDown s) (pending s) (effects s).

Definition set_lines (xs : list nat) (s : LogList) : LogList :=
  mkLogList (heap s) xs (selectedLine s) (list_selectedLine s)
    (scrollDown s) (pending s) (effects s).

Definition set_selectedLine (o : option nat) (s : LogList) : LogList :=
  mkLogList (heap s) (lines s) o (list_selectedLine s)
    (scrollDown s) (pending s) (effects s).

Definition set_pending (p : list nat) (s : LogList) : LogList :=
  mkLogList (heap s) (lines s) (selectedLine s) (list_selectedLine s)
    (scrollDown s) p (effects s).

Definition emit (es : list Effect) (s : LogList) : LogList :=
  mkLogList (heap s) (lines s) (selectedLine s) (list_selectedLine s)
    (scrollDown s) (pending s) (effects s ++ es).

(** [new LogList(janeway, screen, box)] *)
Definition initial (scrollDown : bool) : LogList :=
  mkLogList ∅ [] None None scrollDown [] [].

(** The caller creates a fresh LogLine object ([new XLogLine(this)]) and
    passes it in; [alloc] puts it in the heap at a reference no other
    object has. *)
Definition alloc (l : LogLine) (s : LogList) : nat * LogList :=
  let r := fresh (dom (heap s)) in (r, set_heap (<[r := l]> (heap s)) s).

(** A method either returns, throws a TypeError after having done part of
    its mutations, or runs into behaviour of the protoblast library that
    this development does not model. *)
Inductive outcome :=
| Ok (s : LogList)
| TypeError (s : LogList)
| Unspecified.

(** [arr[i]] for a JS number [i]: negative keys are not array elements. *)
Definition jsget (xs : list nat) (i : Z) : option nat :=
  if (0 <=? i)%Z then xs !! Z.to_nat i else None.

(** [arr.splice(start, 1)] *)
Definition splice_remove (xs : list nat) (start : Z) : list nat :=
  let p := if (start <? 0)%Z
           then Z.to_nat (Z.max (Z.of_nat (length xs) + start) 0)
           else Z.to_nat start in
  delete p xs.

(** ** pushLine *)

Definition pushLine (line : LogLine) (defer : bool) (s : LogList) : LogList :=
  let n := Z.of_nat (length (lines s)) in
  let '(r, s1) := alloc (set_index n line) s in
  let s2 := set_lines (lines s ++ [r]) s1 in
  if negb defer then
    emit (SetLine n (sanitize (text line)) ::
          (if scrollDown s then [ScrollAlong (Some false)] else [])) s2
  else set_pending (pending s2 ++ [r]) s2.

(** The [setImmediate] callbacks of deferred [pushLine] calls, in order:
    [_setLine(line.index, line)] reads the index at that time. *)
Definition runDeferred (s : LogList) : LogList :=
  emit (flat_map (fun r => match heap s !! r with
                           | Some l => [SetLine (index l) (sanitize (text l));
                                        ScrollAlong None]
                           | None => []
                           end) (pending s))
       (set_pending [] s).

(** ** insertAfter *)

(** [for (i = index+1; i < this.list.length; i++) this.list[i].index += 1] *)
Definition bump (refs : list nat) (h : gmap nat LogLine) : gmap nat LogLine :=
  foldl (fun h r => alter (fun l => set_index (index l + 1) l) r h) h refs.

(** [Bound.Array.insert(this.list, index, line)] (protoblast) is modelled
    for [0 <= index <= length], where it inserts the element at [index];
    the library's behaviour for other indices is left [Unspecified].  The
    code itself checks nothing about [afterIndex]. *)
Definition insertAfter (line : LogLine) (afterIndex : Z) (s : LogList) : outcome :=
  let index := (afterIndex + 1)%Z in
  if ((index <? 0)%Z || (Z.of_nat (length (lines s)) <? index)%Z)%bool
  then Unspecified
  else
    let p := Z.to_nat index in
    let '(r, s1) := alloc (set_index index line) s in
    let xs := take p (lines s) ++ r :: drop p (lines s) in
    Ok (emit [InsertLine index (sanitize (text line))]
          (set_heap (bump (drop (S p) xs) (heap s1)) (set_lines xs s1))).

(** ** reIndex *)

(** [for (i = start; i < this.list.length; i++) this.list[i].index = i] *)
Fixpoint reindex_from (refs : list nat) (i : Z) (h : gmap nat LogLine)
  : gmap nat LogLine :=
  match refs with
  | [] => h
  | r :: rs => reindex_from rs (i + 1) (alter (set_index i) r h)
  end.

(** [start = None] is a non-number argument, replaced by 0.  A negative
    start reads [this.list[start]], which is undefined: TypeError. *)
Definition reIndex (start : option Z) (s : LogList) : outcome :=
  let st := default 0%Z start in
  if (st <? 0)%Z then TypeError s
  else Ok (set_heap (reindex_from (drop (Z.to_nat st) (lines s)) st (heap s)) s).

(** ** clearLines and removeLine *)

(** [Blast.Bound.Array.flashsort] (protoblast) sorts numbers ascending; any
    ascending sort yields the same array of numbers. *)
Definition flashsort (xs : list Z) : list Z := merge_sort Z.le xs.

Definition clearLines (indices : list Z) (s : LogList) : outcome :=
  let sorted := flashsort indices in
  let min := head sorted in
  let s1 := foldl (fun s idx => set_lines (splice_remove (lines s) idx)
                                  (emit [DeleteLine idx] s))
                  s (reverse sorted) in
  reIndex min s1.

(** Modelled from the spec: [LogLine#getAllIndices] (the LogLine class is
    not part of log_list.js).  The subtree traversal yields the line's own
    index followed by the indices of all its descendants. *)
Fixpoint allIndices (fuel : nat) (h : gmap nat LogLine) (r : nat) : list Z :=
  match fuel with
  | O => []
  | S f => match h !! r with
           | None => []
           | Some l => index l :: concat (map (allIndices f h) (children l))
           end
  end.

Definition getAllIndices (s : LogList) (r : nat) : list Z :=
  allIndices (S (size (heap s))) (heap s) r.

Definition removeLine (indexToRemove : Z) (s : LogList) : outcome :=
  match jsget (lines s) indexToRemove with
  | None => Ok s
  | Some r =>
      match clearLines (getAllIndices s r) s with
      | Ok s' => Ok (emit [Render] s')
      | o => o
      end
  end.

(** ** Selection *)

(** Modelled from the spec: [LogLine#unselect] clears the line's
    [selected] flag. *)
Definition unselect (r : nat) (s : LogList) : LogList :=
  set_heap (alter (set_selected false) r (heap s)) s.

(** Modelled from the spec: [LogLine#select] first clears the previous
    selection ([logList.selectedLine]), then marks this line selected and
    records it as [logList.selectedLine]. *)
Definition select (r : nat) (s : LogList) : LogList :=
  let s1 := match selectedLine s with Some q => unselect q s | None => s end in
  set_selectedLine (Some r) (set_heap (alter (set_selected true) r (heap s1)) s1).

Definition click (lineIndex x y : Z) (s : LogList) : LogList :=
  match jsget (lines s) lineIndex with
  | None => s
  | Some r => emit [Render] (select r s)
  end.

(** ** clearScreen *)

(** [if (this.list.selectedLine) this.list.selectedLine.unselect();
     this.list.length = 0; this.box.setContent(''); this.render();] *)
Definition clearScreen (s : LogList) : LogList :=
  let s1 := match list_selectedLine s with
            | Some r => unselect r s
            | None => s
            end in
  emit [SetContent []; Render] (set_lines [] s1).


(** ** The index invariant and the reachable states *)

(** [list[i].index == i] for every position [i]. *)
Definition index_invariant (s : LogList) : Prop :=
  ∀ (i : nat) (r : nat), lines s !! i = Some r →
    ∃ l, heap s !! r = Some l ∧ index l = Z.of_nat i.

(** The documented entry points, each run to completion ([Ok]). *)
Inductive step : LogList → LogList → Prop :=
| step_pushLine line defer s : step s (pushLine line defer s)
| step_insertAfter line k s s' :
    (0 <= k < Z.of_nat (length (lines s)))%Z →
    insertAfter line k s = Ok s' → step s s'
| step_removeLine k s s' : removeLine k s = Ok s' → step s s'
| step_clearLines ids s s' : clearLines ids s = Ok s' → step s s'
| step_clearScreen s : step s (clearScreen s)
| step_reIndex st s s' : reIndex st s = Ok s' → step s s'
| step_click i x y s : step s (click i x y s)
| step_runDeferred s : step s (runDeferred s).

Definition reachable (s : LogList) : Prop :=
  ∃ sd, rtc step (initial sd) s.

(** ** JanewayClass#scroll *)

Section Scroll.
(** The blessed output box, seen through [box.getScrollPerc()] and
    [box.scroll(n)]. *)
Variable Box : Type.
Variable getScrollPerc : Box → Q.
Variable boxScroll : Z → Box → Box.

(** [direction = None] is [null]/[undefined], replaced by 1. *)
Definition scroll (direction : option Z) (b : Box) : Box :=
  let d := default 1%Z direction in
  let before := getScrollPerc b in
  let b1 := boxScroll d b in
  let after := getScrollPerc b1 in
  if (Qeq_bool before 0 && Qeq_bool after 0)%bool
  then boxScroll (0 - d) b1
  else b1.
End Scroll.

(** A box with [alwaysScroll]: the first visible line [childBase] ranges
    over [0 .. maxBase]; [box.scroll(n)] clamps to that range and
    [getScrollPerc] is [childBase / maxBase * 100] (0 when everything fits). *)
Record ScrollBox := mkScrollBox { childBase : Z; maxBase : Z }.

Definition sb_perc (b : ScrollBox) : Q :=
  if (maxBase b <=? 0)%Z then 0%Q
  else (inject_Z (100 * childBase b) / inject_Z (maxBase b))%Q.

Definition sb_scroll (n : Z) (b : ScrollBox) : ScrollBox :=
  mkScrollBox (Z.max 0 (Z.min (maxBase b) (childBase b + n))) (maxBase b).

(** ** JanewayClass#extractLineInfo *)

(** ASCII text as UTF-16 code units. *)
Fixpoint js (s : String.string) : jsstring :=
  match s with
  | String.EmptyString => []
  | String.String a s' => Z.of_nat (Ascii.nat_of_ascii a) :: js s'
  end.

(** The regular-expression constructs the two patterns use. [Mark]
    records a capture boundary (group open or close); [Lazy] and [Greedy]
    are [*?] and [*] over a one-character class; [Bol] is [^]. *)
Inductive item :=
| Bol
| Chr (c : Z)
| Mark
| Lazy (cls : Z → bool)
| Greedy (cls : Z → bool).

(** [.]: any code unit but a line terminator. *)
Definition dot (c : Z) : bool :=
  negb (Z.eqb c 10 || Z.eqb c 13 || Z.eqb c 8232 || Z.eqb c 8233).

(** [\d] *)
Definition digit (c : Z) : bool := (48 <=? c)%Z && (c <=? 57)%Z.

(** Backtracking matcher: the items from position [pos] of the remaining
    input [s]; returns the capture boundaries in order. *)
Fixpoint m (items : list item) (s : jsstring) (pos : nat) (caps : list nat)
  {struct items} : option (list nat) :=
  match items with
  | [] => Some caps
  | Bol :: rest => if Nat.eqb pos 0 then m rest s pos caps else None
  | Chr c :: rest =>
      match s with
      | x :: s' => if Z.eqb x c then m rest s' (S pos) caps else None
      | [] => None
      end
  | Mark :: rest => m rest s pos (caps ++ [pos])
  | Lazy cls :: rest =>
      (fix go (s : jsstring) (pos : nat) : option (list nat) :=
         match m rest s pos caps with
         | Some r => Some r
         | None =>
             match s with
             | x :: s' => if cls x then go s' (S pos) else None
             | [] => None
             end
         end) s pos
  | Greedy cls :: rest =>
      (fix go (s : jsstring) (pos : nat) : option (list nat) :=
         match s with
         | x :: s' =>
             if cls x then
               match go s' (S pos) with
               | Some r => Some r
               | None => m rest s pos caps
               end
             else m rest s pos caps
         | [] => m rest s pos caps
         end) s pos
  end.

(** [re.exec(input)] without the [g] flag: the first start position at
    which the pattern matches. *)
Fixpoint exec_from (re : list item) (s : jsstring) (pos : nat)
  : option (list nat) :=
  match m re s pos [] with
  | Some c => Some c
  | None => match s with [] => None | _ :: s' => exec_from re s' (S pos) end
  end.

(** A JS value that is a string or [undefined] ([None]). *)
Abbreviation jsval := (option jsstring).

(** [result[g]] for the capture group [g >= 1]. *)
Definition group (input : jsstring) (caps : list nat) (g : nat) : jsval :=
  match caps !! (2 * g - 2), caps !! (2 * g - 1) with
  | Some a, Some b => Some (take (b - a) (drop a input))
  | _, _ => None
  end.

(** [re.exec(input)] as the array [result]: [result[0]] is not used by the
    code and left out; the list holds [result[1]], [result[2]], ... *)
Definition exec (re : list item) (ngroups : nat) (input : jsstring)
  : option (list jsval) :=
  (fun caps => map (group input caps) (seq 1 ngroups)) <$> exec_from re input 0.

(** The strict pattern of extractLineInfo: anchored at the start, a
    space, group 1 = lazy [.], a space and [(], group 2 = lazy [.], [:],
    group 3 = greedy [\d], [:], group 4 = greedy [\d], [)]. *)
Definition strict_re : list item :=
  [Bol; Chr 32; Mark; Lazy dot; Mark; Chr 32; Chr 40; Mark; Lazy dot; Mark;
   Chr 58; Mark; Greedy digit; Mark; Chr 58; Mark; Greedy digit; Mark; Chr 41].

(** The loose pattern of extractLineInfo, unanchored: group 1 = lazy
    [.], [:], group 2 = greedy [\d], [:], group 3 = greedy [\d]. *)
Definition loose_re : list item :=
  [Mark; Lazy dot; Mark; Chr 58; Mark; Greedy digit; Mark; Chr 58;
   Mark; Greedy digit; Mark].

(** [str.indexOf(pat)] *)
Fixpoint index_of_from (pat s : jsstring) (i : Z) : Z :=
  match s with
  | [] => if decide (pat = []) then i else (-1)%Z
  | _ :: s' => if decide (take (length pat) s = pat) then i
               else index_of_from pat s' (i + 1)
  end.

Definition index_of (pat s : jsstring) : Z := index_of_from pat s 0.

(** [str.slice(start, str.length)] *)
Definition slice_from (s : jsstring) (start : Z) : jsstring :=
  let n := Z.of_nat (length s) in
  let st := if (start <? 0)%Z then Z.max (n + start) 0 else Z.min start n in
  drop (Z.to_nat st) s.

(** [str.split(sep)] for a one-unit separator. *)
Fixpoint split_on (sep : Z) (s : jsstring) : list jsstring :=
  match s with
  | [] => [[]]
  | x :: s' =>
      if Z.eqb x sep then [] :: split_on sep s'
      else match split_on sep s' with
           | w :: ws => (x :: w) :: ws
           | [] => [[x]]
           end
  end.

(** [arr.pop()] on a non-empty array of strings; [undefined] on [[]]. *)
Definition pop (xs : list jsstring) : jsval := last xs.

Record CallerInfo := mkCallerInfo {
  name : jsval;
  path : jsval;
  file : jsval;
  line : jsval;
  char : jsval
}.

Local Open Scope string_scope.

(** [index = caller_line.indexOf('at ');
     clean = caller_line.slice(index+2, caller_line.length);] *)
Definition clean_of (caller_line : jsstring) : jsstring :=
  let index := index_of (js "at ") caller_line in
  slice_from caller_line (index + 2).

(** [None] is a thrown TypeError (a method called on [undefined]). *)
Definition extractLineInfo (caller_line : jsstring) : option CallerInfo :=
  let clean := clean_of caller_line in
  let result :=
    match exec strict_re 4 clean with
    | Some res => res
    | None =>
        let temp := match exec loose_re 3 clean with
                    | Some t => t
                    | None => [Some (js "unknown"); Some (js "unknown");
                               Some (js "unknown")]
                    end in
        [Some (js "anonymous"); mjoin (temp !! 0); mjoin (temp !! 1);
         mjoin (temp !! 2)]
    end in
  let r (i : nat) : jsval := mjoin (result !! i) in
  match r 1 with
  | None => None
  | Some p =>
      Some (mkCallerInfo (r 0) (Some p) (pop (split_on 47 p)) (r 2) (r 3))
  end.

Local Close Scope string_scope.

(** The number of capture boundaries a pattern records. *)
Fixpoint nmarks (items : list item) : nat :=
  match items with
  | [] => 0
  | Mark :: rest => S (nmarks rest)
  | _ :: rest => nmarks rest
  end.

(** ** Positional filter used to state the result of a removal *)

(** The elements of [l] whose position (counted from [n]) satisfies [P],
    in order. *)
Fixpoint keep_from {A} (P : nat → bool) (n : nat) (l : list A) : list A :=
  match l with
  | [] => []
  | x :: l' => if P n then x :: keep_from P (S n) l' else keep_from P (S n) l'
  end.

(** The entries of [l] at the positions not listed in [ids]. *)
Definition survivors (ids : list Z) (l : list nat) : list nat :=
  keep_from (fun j => negb (bool_decide (Z.of_nat j ∈ ids))) 0 l.

(** ** JanewayClass#esc and JanewayClass#stripEsc *)

(** ['\u001b[' + code + 'm'] *)
Definition esc_code (code : jsstring) : jsstring := [27%Z; 91%Z] ++ code ++ [109%Z].

(** [esc(code, str, endcode)]: [code], [str] and [endcode] are the
    strings the concatenation makes of them; [str = None] is [undefined],
    and an [undefined] [endcode] becomes [0]. *)
Definition esc (code : jsstring) (str : option jsstring)
    (endcode : option jsstring) : jsstring :=
  match str with
  | None => esc_code code
  | Some s => esc_code code ++ s ++ esc_code (default [48%Z] endcode)
  end.

(** The units [(\d\;?)+] followed by [m], at the start of the input.  The
    run of units ends at the first code unit outside [0-9] and [;], which
    has to be [m], so a match is unique.  States: 0 = a digit is needed,
    1 = after a digit, 2 = after a digit and [;].  The result is the
    number of code units matched. *)
Fixpoint sgr_scan (st : nat) (s : jsstring) : option nat :=
  match s with
  | [] => None
  | c :: s' =>
      if digit c then S <$> sgr_scan 1 s'
      else if (Z.eqb c 59 && Nat.eqb st 1)%bool then S <$> sgr_scan 2 s'
      else if (Z.eqb c 109 && negb (Nat.eqb st 0))%bool then Some 1
      else None
  end.

(** A match of [/\u001b\[(\d\;?)+m/] at the start of the input: its
    length. *)
Definition sgr_at (s : jsstring) : option nat :=
  match s with
  | e :: b :: r =>
      if (Z.eqb e 27 && Z.eqb b 91)%bool then Nat.add 2 <$> sgr_scan 0 r
      else None
  | _ => None
  end.

(** [s.replace(/\u001b\[(\d\;?)+m/g, '')]: left to right, each match is
    dropped and the search goes on after it; [skip] is the number of code
    units of the current match still to drop. *)
Fixpoint strip_sgr (skip : nat) (s : jsstring) : jsstring :=
  match s with
  | [] => []
  | c :: s' =>
      match skip with
      | S k => strip_sgr k s'
      | O => match sgr_at s with
             | Some n => strip_sgr (n - 1) s'
             | None => c :: strip_sgr 0 s'
             end
      end
  end.

(** A match of [/\\u001(?:b|B)\[(\d\;?)+m/] (the text of an escape as
    [util.inspect] writes it) at the start of the input: its length. *)
Definition lit_at (s : jsstring) : option nat :=
  match s with
  | a :: u :: z1 :: z2 :: o :: b :: br :: r =>
      if (Z.eqb a 92 && Z.eqb u 117 && Z.eqb z1 48 && Z.eqb z2 48 &&
          Z.eqb o 49 && (Z.eqb b 98 || Z.eqb b 66) && Z.eqb br 91)%bool
      then Nat.add 7 <$> sgr_scan 0 r
      else None
  | _ => None
  end.

(** [s.replace(re, '')] without the [g] flag: the leftmost match only. *)
Fixpoint replace_first (at_ : jsstring → option nat) (s : jsstring) : jsstring :=
  match s with
  | [] => []
  | c :: s' =>
      match at_ s with
      | Some n => drop n s
      | None => c :: replace_first at_ s'
      end
  end.

(** [literal] is the truthiness of the second argument. *)
Definition stripEsc (str : jsstring) (literal : bool) : jsstring :=
  let result := strip_sgr 0 str in
  if literal then replace_first lit_at result else result.

(** [arr.join(sep)] for a one-unit separator. *)
Fixpoint join_on (sep : Z) (xs : list jsstring) : jsstring :=
  match xs with
  | [] => []
  | [x] => x
  | x :: xs' => x ++ sep :: join_on sep xs'
  end.

(** ** JanewayClass#indent *)

Section Indent.
(** [multiply] is a free identifier: neither this file nor its imports
    declare it.  [None]: no global of that name, so a call throws a
    ReferenceError; [Some f]: the function some other module put in the
    global scope. *)
Variable multiply : option (jsstring → Z → jsstring).
(** [consoleWidth = process.stdout.columns]; [None] is [undefined] (not a
    terminal), for which [visibleLength > consoleWidth] is false. *)
Variable consoleWidth : option Z.

(** The loop over [lines], from position [i]; [None] is the
    ReferenceError. *)
Fixpoint indent_lines (visibleCount difference : Z) (skipFirst : bool)
    (i : nat) (ls : list jsstring) : option (list jsstring) :=
  match ls with
  | [] => Some []
  | l :: ls' =>
      let padded :=
        if (Nat.eqb i 0 && skipFirst)%bool
        then Some (l, fun w => (w + difference)%Z)
        else (fun f => (f [32%Z] visibleCount ++ l, fun w : Z => w)) <$> multiply in
      match padded with
      | None => None
      | Some (line, maxWidth) =>
          let visibleLength := Z.of_nat (length (stripEsc line false)) in
          let line' :=
            match consoleWidth with
            | Some w =>
                if (w <? visibleLength)%Z
                then (fun f =>
                        let mw := Z.to_nat (maxWidth w) in
                        take mw line ++ 10%Z :: f [32%Z] visibleCount ++ drop mw line)
                     <$> multiply
                else Some line
            | None => Some line
            end in
          match line' with
          | None => None
          | Some x => cons x <$> indent_lines visibleCount difference skipFirst (S i) ls'
          end
      end
  end.

(** [indent(text, skipText, skipFirstLine)]; [skipFirstLine = None] is
    [undefined], which counts as [true]. *)
Definition indent (text skipText : jsstring) (skipFirstLine : option bool)
    : option jsstring :=
  let lines := split_on 10 text in
  let visibleCount := Z.of_nat (length (stripEsc skipText false)) in
  let hiddenCount := Z.of_nat (length skipText) in
  let difference := (hiddenCount - visibleCount)%Z in
  join_on 10 <$>
    indent_lines visibleCount difference (default true skipFirstLine) 0 lines.
End Indent.

(** The caller prefix [print] builds when there is no LogList:
    [esc(90, '[') + type + esc(90, '] ') + esc(90, '[')
     + esc(1, info.file + ':' + info.line) + esc(90, '] ')]. *)
Definition print_trace (type file line : jsstring) : jsstring :=
  esc [57%Z; 48%Z] (Some [91%Z]) None ++ type ++
  esc [57%Z; 48%Z] (Some [93%Z; 32%Z]) None ++
  esc [57%Z; 48%Z] (Some [91%Z]) None ++
  esc [49%Z] (Some (file ++ 58%Z :: line)) None ++
  esc [57%Z; 48%Z] (Some [93%Z; 32%Z]) None.

(** ** JanewayClass#popup *)

(** A value in a [position] object. *)
Inductive pval := PNum (z : Z) | PStr (s : jsstring) | PNull.

(** A [position] object; an absent key is [undefined]. *)
Abbreviation position := (gmap jsstring pval).

(** A truthy [options] object; [opt_position = None] is a falsy
    [options.position]. *)
Record PopupOptions := mkPopupOptions {
  opt_position : option position;
  opt_items : list jsstring
}.

(** Calls on blessed widgets and on the screen. *)
Inductive UiEffect :=
| Destroy (w : nat)
| CreateList (w : nat) (pos : position) (items : list jsstring)
| Append (w : nat)
| SetFront (w : nat)
| ScreenRender.

(** The Janeway instance as far as [popup] uses it: [open_popups], the
    widgets created so far, and the calls made. *)
Record Janeway := mkJaneway {
  open_popups : gmap jsstring nat;
  widgets : gset nat;
  ui : list UiEffect
}.

Local Open Scope string_scope.

(** Keys the object [{}] inherits from [Object.prototype]:
    [this.open_popups[id]] is then a function (or, for [__proto__], the
    prototype object), truthy and without a [destroy] method. *)
Definition object_proto_names : list jsstring :=
  map js ["constructor"; "hasOwnProperty"; "isPrototypeOf";
          "propertyIsEnumerable"; "toString"; "toLocaleString"; "valueOf";
          "__proto__"; "__defineGetter__"; "__defineSetter__";
          "__lookupGetter__"; "__lookupSetter__"].

Local Close Scope string_scope.

(** [if (this.open_popups[id]) this.open_popups[id].destroy();]; [None]
    is the TypeError of calling a missing [destroy]. *)
Definition destroy_current (id : jsstring) (j : Janeway) : option Janeway :=
  match open_popups j !! id with
  | Some w => Some (mkJaneway (open_popups j) (widgets j) (ui j ++ [Destroy w]))
  | None => if bool_decide (id ∈ object_proto_names) then None else Some j
  end.

(** [x == null] *)
Definition loose_null (v : option pval) : bool :=
  match v with None | Some PNull => true | _ => false end.

Inductive popup_result :=
| PopupOk (j : Janeway) (ret : option nat)
| PopupTypeError (j : Janeway).

(** [popup(id, options)]; [options = None] is a falsy [options].  The
    defaults are also written into the caller's [options.position] object;
    the only caller passes a fresh literal.  The new list is a fresh
    widget. *)
Definition popup (id : jsstring) (options : option PopupOptions) (j : Janeway)
    : popup_result :=
  match options with
  | None =>
      match destroy_current id j with
      | Some j1 => PopupOk j1 None
      | None => PopupTypeError j
      end
  | Some o =>
      let pos0 := default ∅ (opt_position o) in
      let pos1 := if loose_null (pos0 !! [98; 111; 116; 116; 111; 109]%Z)
                  then <[[98; 111; 116; 116; 111; 109]%Z := PNum 2]> pos0
                  else pos0 in
      let pos := if loose_null (pos1 !! [104; 101; 105; 103; 104; 116]%Z)
                 then <[[104; 101; 105; 103; 104; 116]%Z := PNum 6]> pos1
                 else pos1 in
      match destroy_current id j with
      | None => PopupTypeError j
      | Some j1 =>
          let w := fresh (widgets j1) in
          PopupOk (mkJaneway (<[id := w]> (open_popups j1)) ({[w]} ∪ widgets j1)
                     (ui j1 ++ [CreateList w pos (opt_items o); Append w;
                                SetFront w; ScreenRender]))
                  (Some w)
      end
  end.

(** The two keys [popup] fills in. *)
Definition key_bottom : jsstring := [98; 111; 116; 116; 111; 109]%Z.
Definition key_height : jsstring := [104; 101; 105; 103; 104; 116]%Z.

(** [open_popups] only holds widgets that were created. *)
Definition popups_created (j : Janeway) : Prop :=
  ∀ id w, open_popups j !! id = Some w → w ∈ widgets j.

(** ** Scenarios from the spec, evaluated *)

Definition lineA : LogLine := mkLogLine 0 [65%Z] false [].
Definition lineB : LogLine := mkLogLine 0 [66%Z] false [].
Definition lineC : LogLine := mkLogLine 0 [67%Z] false [].
Definition lineX : LogLine := mkLogLine 0 [88%Z] false [].

Definition bufABC : LogList :=
  pushLine lineC false (pushLine lineB false (pushLine lineA false (initial false))).

Definition bufA : LogList := pushLine lineA false (initial false).

(** [bufABC] after a click on its first line. *)
Definition bufClicked : LogList := click 0 0 0 bufABC.

(** A line with one child: the entry pushed right after it. *)
Definition lineP : LogLine := mkLogLine 0 [80%Z] false [1].

Definition bufP : LogList :=
  pushLine lineC false (pushLine lineB false (pushLine lineP false (initial false))).

Local Open Scope string_scope.

(** A stack line of a named function. *)
Definition stack_line_named : jsstring := js "    at foo (/a/b.js:12:3)".

Local Close Scope string_scope.

Definition texts_indices (s : LogList) : list (jsstring * Z) :=
  omap (fun r => (fun l => (text l, index l)) <$> heap s !! r) (lines s).

Example removeLine_scenario :
  match removeLine 1 bufABC with
  | Ok s => texts_indices s = [([65%Z], 0%Z); ([67%Z], 1%Z)]
  | _ => False
  end.
Proof. vm_compute. reflexivity. Qed.

Example insertAfter_scenario :
  match insertAfter lineX 0 (pushLine lineA false (initial false)) with
  | Ok s => texts_indices s = [([65%Z], 0%Z); ([88%Z], 1%Z)]
  | _ => False
  end.
Proof. vm_compute. reflexivity. Qed.

(** ** Heap updates done by the loops *)

Section HeapLoops.
Implicit Types (h : gmap nat LogLine) (refs : list nat) (r : nat).

Lemma bump_notin refs h r : r ∉ refs → bump refs h !! r = h !! r.
Proof.
  revert h; induction refs as [|r0 rs IH]; intros h Hn; [done|].
  cbn [bump foldl]. fold (bump rs (alter (fun l => set_index (index l + 1) l) r0 h)).
  rewrite IH by set_solver. apply lookup_alter_ne. set_solver.
Qed.

Lemma bump_in refs h r :
  NoDup refs → r ∈ refs →
  bump refs h !! r = (fun l => set_index (index l + 1) l) <$> h !! r.
Proof.
  revert h; induction refs as [|r0 rs IH]; intros h Hnd Hin.
  - by apply not_elem_of_nil in Hin.
  - apply NoDup_cons in Hnd as [Hr0 Hnd].
    cbn [bump foldl]. fold (bump rs (alter (fun l => set_index (index l + 1) l) r0 h)).
    apply elem_of_cons in Hin as [->|Hin].
    + rewrite bump_notin by done. apply lookup_alter_eq.
    + rewrite IH by done. rewrite lookup_alter_ne; [done|]. by intros ->.
Qed.

Lemma reindex_from_notin refs i h r :
  r ∉ refs → reindex_from refs i h !! r = h !! r.
Proof.
  revert i h; induction refs as [|r0 rs IH]; intros i h Hn; [done|]; simpl.
  rewrite IH by set_solver. apply lookup_alter_ne. set_solver.
Qed.

Lemma reindex_from_at refs i h j r :
  NoDup refs → refs !! j = Some r →
  reindex_from refs i h !! r = set_index (i + Z.of_nat j) <$> h !! r.
Proof.
  revert i h j; induction refs as [|r0 rs IH]; intros i h j Hnd Hj; [done|].
  apply NoDup_cons in Hnd as [Hr0 Hnd]. simpl.
  destruct j as [|j]; simpl in Hj.
  - injection Hj as <-. rewrite reindex_from_notin by done.
    rewrite lookup_alter_eq. by rewrite Z.add_0_r.
  - rewrite (IH _ _ j) by done.
    rewrite lookup_alter_ne.
    + do 2 f_equal. lia.
    + intros ->. apply Hr0. by eapply list_elem_of_lookup_2.
Qed.

Lemma reindex_from_None refs i h r :
  h !! r = None → reindex_from refs i h !! r = None.
Proof.
  revert i h; induction refs as [|r0 rs IH]; intros i h Hn; [done|]; simpl.
  apply IH. by apply lookup_alter_None.
Qed.
End HeapLoops.

(** ** Lists *)

Lemma take_delete_ge {A} (xs : list A) m p :
  m ≤ p → take m (delete p xs) = take m xs.
Proof.
  revert m p; induction xs as [|x xs IH]; intros [|m] [|p] Hle; simpl;
    try done; try lia.
  f_equal. apply IH. lia.
Qed.

Lemma index_invariant_NoDup s : index_invariant s → NoDup (lines s).
Proof.
  intros Hinv. apply NoDup_alt. intros i j r Hi Hj.
  destruct (Hinv _ _ Hi) as (l & Hl & Hli).
  destruct (Hinv _ _ Hj) as (l' & Hl' & Hlj).
  rewrite Hl in Hl'. injection Hl' as <-. lia.
Qed.

Lemma index_invariant_in_heap s r :
  index_invariant s → r ∈ lines s → is_Some (heap s !! r).
Proof.
  intros Hinv Hr. apply list_elem_of_lookup in Hr as [i Hi].
  destruct (Hinv _ _ Hi) as (l & Hl & _). by exists l.
Qed.

Lemma alloc_fresh s r :
  index_invariant s → r ∈ lines s → r ≠ fresh (dom (heap s)).
Proof.
  intros Hinv Hr ->. destruct (index_invariant_in_heap s _ Hinv Hr) as [l Hl].
  pose proof (is_fresh (dom (heap s))) as Hf.
  apply not_elem_of_dom in Hf. congruence.
Qed.

(** ** The index invariant is preserved by every entry point *)

Lemma reIndex_nonneg (st : option Z) s s' :
  reIndex st s = Ok s' → (0 <= default 0%Z st)%Z.
Proof.
  unfold reIndex. destruct (default 0 st <? 0)%Z eqn:Hz; [discriminate|].
  intros _. by apply Z.ltb_ge in Hz.
Qed.

(** [reIndex(start)] restores the invariant when the entries before
    [start] already carry their positions. *)
Lemma reIndex_invariant (st : option Z) s s' :
  NoDup (lines s) →
  (∀ r, r ∈ lines s → is_Some (heap s !! r)) →
  (∀ i r, i < Z.to_nat (default 0%Z st) → lines s !! i = Some r →
     ∃ l, heap s !! r = Some l ∧ index l = Z.of_nat i) →
  reIndex st s = Ok s' → index_invariant s'.
Proof.
  intros Hnd Hin Hpre Hok. pose proof (reIndex_nonneg _ _ _ Hok) as Hz.
  revert Hok. unfold reIndex. set (z := default 0%Z st) in *.
  destruct (z <? 0)%Z eqn:Hlt; [discriminate|]. intros [= <-].
  intros i r Hi. cbn [heap lines set_heap].
  destruct (decide (i < Z.to_nat z)) as [Hlo|Hhi].
  - destruct (Hpre i r Hlo Hi) as (l & Hl & Hli). exists l.
    rewrite reindex_from_notin; [done|].
    intros Hr. apply list_elem_of_lookup in Hr as [j Hj].
    rewrite lookup_drop in Hj.
    pose proof (NoDup_lookup _ _ _ _ Hnd Hi Hj). lia.
  - assert (Hj : drop (Z.to_nat z) (lines s) !! (i - Z.to_nat z) = Some r).
    { rewrite lookup_drop. rewrite <- Hi. f_equal. lia. }
    rewrite (reindex_from_at _ _ _ _ _ (sublist_NoDup _ _ Hnd (sublist_drop _ _)) Hj).
    destruct (Hin r) as [l Hl]; [by eapply list_elem_of_lookup_2|].
    rewrite Hl. eexists; split; [done|]. simpl. lia.
Qed.

Lemma clearLines_fold ids s :
  foldl (fun s idx => set_lines (splice_remove (lines s) idx)
                        (emit [DeleteLine idx] s)) s ids =
  mkLogList (heap s) (foldl splice_remove (lines s) ids) (selectedLine s)
    (list_selectedLine s) (scrollDown s) (pending s)
    (effects s ++ map DeleteLine ids).
Proof.
  revert s; induction ids as [|idx ids IH]; intros s; simpl.
  - destruct s; simpl. by rewrite app_nil_r.
  - rewrite IH. simpl. by rewrite <- app_assoc.
Qed.

(** Removing positions that are all at least [m] keeps the first [m]
    entries and leaves a sublist. *)
Lemma remove_from_prefix xs ps m :
  (∀ p, p ∈ ps → (0 <= p)%Z ∧ m ≤ Z.to_nat p) →
  take m (foldl splice_remove xs ps) = take m xs ∧
  foldl splice_remove xs ps `sublist_of` xs.
Proof.
  revert xs; induction ps as [|p ps IH]; intros xs Hps; simpl.
  - split; [done|reflexivity].
  - destruct (Hps p) as [Hp0 Hpm]; [set_solver|].
    assert (Hp : splice_remove xs p = delete (Z.to_nat p) xs).
    { unfold splice_remove. by rewrite (proj2 (Z.ltb_ge p 0) ltac:(lia)). }
    destruct (IH (splice_remove xs p)) as [H1 H2]; [set_solver|].
    rewrite Hp in H1, H2 |- *. split.
    + rewrite H1. by apply take_delete_ge.
    + etrans; [apply H2|apply sublist_delete].
Qed.

(** Every element of the sorted index array is at least its head. *)
Lemma flashsort_head_le ids p :
  p ∈ flashsort ids → (default 0%Z (head (flashsort ids)) <= p)%Z.
Proof.
  pose proof (StronglySorted_merge_sort Z.le ids) as Hs.
  unfold flashsort. destruct (merge_sort Z.le ids) as [|h t]; simpl.
  - by intros ?%not_elem_of_nil.
  - apply StronglySorted_inv in Hs as [_ Hall].
    rewrite elem_of_cons. intros [->|Hp]; [lia|].
    rewrite Forall_forall in Hall. by apply Hall.
Qed.

Lemma clearLines_invariant ids s s' :
  index_invariant s → clearLines ids s = Ok s' → index_invariant s'.
Proof.
  intros Hinv Hok. pose proof (reIndex_nonneg _ _ _ Hok) as Hz.
  revert Hok. unfold clearLines. rewrite clearLines_fold.
  set (m := Z.to_nat (default 0%Z (head (flashsort ids)))).
  destruct (remove_from_prefix (lines s) (reverse (flashsort ids)) m)
    as [Htake Hsub].
  { intros p Hp. rewrite elem_of_reverse in Hp.
    pose proof (flashsort_head_le ids p Hp). split; lia. }
  pose proof (index_invariant_NoDup s Hinv) as Hnd.
  apply reIndex_invariant; cbn [lines heap].
  - by eapply sublist_NoDup; [apply Hnd|].
  - intros r Hr. apply (index_invariant_in_heap s r Hinv).
    by eapply elem_of_sublist.
  - intros i r Hi Hr. apply Hinv.
    rewrite <- (lookup_take_lt _ m i) by done. rewrite <- Htake.
    by rewrite lookup_take_lt.
Qed.

Lemma index_invariant_ext s s' :
  heap s' = heap s → lines s' = lines s →
  index_invariant s → index_invariant s'.
Proof. intros Hh Hl Hinv i r. rewrite Hh, Hl. apply Hinv. Qed.

Lemma pushLine_invariant line defer s :
  index_invariant s → index_invariant (pushLine line defer s).
Proof.
  intros Hinv. set (r := fresh (dom (heap s))).
  set (n := Z.of_nat (length (lines s))).
  apply (index_invariant_ext
           (mkLogList (<[r := set_index n line]> (heap s)) (lines s ++ [r])
              None None false [] [])).
  { unfold pushLine, alloc. by destruct defer. }
  { unfold pushLine, alloc. by destruct defer. }
  intros i q Hi. cbn [heap lines] in *. rewrite lookup_app in Hi.
  destruct (lines s !! i) as [q'|] eqn:Hq.
  - injection Hi as <-. rewrite lookup_insert_ne.
    + by apply Hinv.
    + intros Heq. apply (alloc_fresh s q' Hinv); [|done].
      by eapply list_elem_of_lookup_2.
  - apply lookup_ge_None in Hq.
    apply list_lookup_singleton_Some in Hi as [Hi0 <-].
    rewrite lookup_insert_eq. eexists; split; [done|]. simpl. subst n. lia.
Qed.

(** *** Positions in [take p l ++ r :: drop p l] *)

Lemma insert_lookup_lt (l : list nat) r p i :
  i < p → p ≤ length l → (take p l ++ r :: drop p l) !! i = l !! i.
Proof.
  intros Hi Hp. rewrite lookup_app_l by (rewrite length_take_le; lia).
  by apply lookup_take_lt.
Qed.

Lemma insert_lookup_eq (l : list nat) r p :
  p ≤ length l → (take p l ++ r :: drop p l) !! p = Some r.
Proof. intros Hp. apply list_lookup_middle. by rewrite length_take_le. Qed.

Lemma insert_lookup_gt (l : list nat) r p j :
  p ≤ j → p ≤ length l → (take p l ++ r :: drop p l) !! S j = l !! j.
Proof.
  intros Hj Hp. rewrite lookup_app_r by (rewrite length_take_le; lia).
  rewrite length_take_le by done.
  replace (S j - p) with (S (j - p)) by lia. simpl.
  rewrite lookup_drop. f_equal. lia.
Qed.

Lemma insert_drop (l : list nat) r p :
  p ≤ length l → drop (S p) (take p l ++ r :: drop p l) = drop p l.
Proof.
  intros Hp. rewrite cons_middle, app_assoc.
  apply drop_app_length'. rewrite length_app, length_take_le by done.
  simpl. lia.
Qed.

(** *** insertAfter unfolded *)

Lemma insertAfter_Ok line k s :
  (0 <= k + 1 <= Z.of_nat (length (lines s)))%Z →
  let p := Z.to_nat (k + 1) in
  let r := fresh (dom (heap s)) in
  insertAfter line k s =
    Ok (mkLogList
          (bump (drop p (lines s)) (<[r := set_index (k + 1) line]> (heap s)))
          (take p (lines s) ++ r :: drop p (lines s))
          (selectedLine s) (list_selectedLine s) (scrollDown s) (pending s)
          (effects s ++ [InsertLine (k + 1) (sanitize (text line))])).
Proof.
  intros Hk p r. unfold insertAfter.
  rewrite (proj2 (Z.ltb_ge (k + 1) 0) ltac:(lia)).
  rewrite (proj2 (Z.ltb_ge (Z.of_nat (length (lines s))) (k + 1)) ltac:(lia)).
  simpl.
  rewrite insert_drop by (subst p; lia). reflexivity.
Qed.

Section InsertHeap.
Variable (line : LogLine) (k : Z) (s : LogList).
Hypothesis Hinv : index_invariant s.
Hypothesis Hk : (0 <= k + 1 <= Z.of_nat (length (lines s)))%Z.

Let p := Z.to_nat (k + 1).
Let r := fresh (dom (heap s)).
Let h' := bump (drop p (lines s)) (<[r := set_index (k + 1) line]> (heap s)).

Lemma insert_heap_new : h' !! r = Some (set_index (k + 1) line).
Proof.
  unfold h'. rewrite bump_notin.
  - apply lookup_insert_eq.
  - intros Hr. apply (alloc_fresh s r Hinv); [|done].
    by eapply elem_of_sublist, sublist_drop.
Qed.

Lemma insert_heap_before j q :
  j < p → lines s !! j = Some q → h' !! q = heap s !! q.
Proof.
  intros Hj Hq. unfold h'. rewrite bump_notin.
  - apply lookup_insert_ne. intros Heq. apply (alloc_fresh s q Hinv); [|done].
    by eapply list_elem_of_lookup_2.
  - intros Hin. apply list_elem_of_lookup in Hin as [j' Hj'].
    rewrite lookup_drop in Hj'.
    pose proof (NoDup_lookup _ _ _ _ (index_invariant_NoDup s Hinv) Hq Hj').
    lia.
Qed.

Lemma insert_heap_after j q :
  p ≤ j → lines s !! j = Some q →
  h' !! q = (fun l => set_index (index l + 1) l) <$> heap s !! q.
Proof.
  intros Hj Hq. unfold h'. rewrite bump_in.
  - rewrite lookup_insert_ne; [done|]. intros Heq.
    apply (alloc_fresh s q Hinv); [|done]. by eapply list_elem_of_lookup_2.
  - eapply sublist_NoDup; [apply (index_invariant_NoDup s Hinv)|].
    apply sublist_drop.
  - apply list_elem_of_lookup. exists (j - p). rewrite lookup_drop.
    rewrite <- Hq. f_equal. lia.
Qed.
End InsertHeap.

Lemma insertAfter_invariant line k s s' :
  index_invariant s → (0 <= k + 1 <= Z.of_nat (length (lines s)))%Z →
  insertAfter line k s = Ok s' → index_invariant s'.
Proof.
  intros Hinv Hk. rewrite insertAfter_Ok by done. intros [= <-].
  intros i q Hi. cbn [heap lines] in *.
  assert (Hp : Z.to_nat (k + 1) ≤ length (lines s)) by lia.
  destruct (lt_eq_lt_dec i (Z.to_nat (k + 1))) as [[Hlt| ->]|Hgt].
  - rewrite insert_lookup_lt in Hi by done.
    rewrite (insert_heap_before line k s Hinv i q) by done. by apply Hinv.
  - rewrite insert_lookup_eq in Hi by done. injection Hi as <-.
    rewrite insert_heap_new by done. eexists; split; [done|]. simpl. lia.
  - destruct i as [|j]; [lia|].
    rewrite insert_lookup_gt in Hi by lia.
    rewrite (insert_heap_after line k s Hinv j q) by (done || lia).
    destruct (Hinv _ _ Hi) as (l & Hl & Hli). rewrite Hl.
    eexists; split; [done|]. simpl. lia.
Qed.

Lemma removeLine_invariant k s s' :
  index_invariant s → removeLine k s = Ok s' → index_invariant s'.
Proof.
  intros Hinv. unfold removeLine. destruct (jsget (lines s) k) as [r|].
  - destruct (clearLines (getAllIndices s r) s) as [s1| |] eqn:Hcl;
      try discriminate.
    intros [= <-]. apply (index_invariant_ext s1); [done|done|].
    by eapply clearLines_invariant.
  - by intros [= <-].
Qed.

Lemma alter_selected_invariant b q s :
  index_invariant s →
  index_invariant (set_heap (alter (set_selected b) q (heap s)) s).
Proof.
  intros Hinv i r Hi. cbn [heap lines set_heap] in *.
  destruct (Hinv i r Hi) as (l & Hl & Hli).
  destruct (decide (q = r)) as [->|Hne].
  - rewrite lookup_alter_eq, Hl. by eexists.
  - rewrite lookup_alter_ne by done. by eexists.
Qed.

Lemma clearScreen_invariant s : index_invariant (clearScreen s).
Proof.
  intros i r Hi. unfold clearScreen in Hi.
  destruct (list_selectedLine s); discriminate.
Qed.

Lemma click_invariant i x y s :
  index_invariant s → index_invariant (click i x y s).
Proof.
  intros Hinv. unfold click. destruct (jsget (lines s) i) as [r|]; [|done].
  apply (index_invariant_ext (select r s)); [done|done|].
  unfold select.
  apply (index_invariant_ext
           (set_heap (alter (set_selected true) r
                        (heap (match selectedLine s with
                               | Some q => unselect q s
                               | None => s end)))
                     (match selectedLine s with
                      | Some q => unselect q s
                      | None => s end))); [done| |].
  - by destruct (selectedLine s).
  - apply alter_selected_invariant.
    destruct (selectedLine s) as [q|]; [|done].
    by apply alter_selected_invariant.
Qed.

Lemma step_invariant s s' :
  step s s' → index_invariant s → index_invariant s'.
Proof.
  intros Hstep Hinv. destruct Hstep as
    [line defer s|line k s s' Hk Hok|k s s' Hok|ids s s' Hok|s
    |st s s' Hok|i x y s|s].
  - by apply pushLine_invariant.
  - eapply insertAfter_invariant; [done| |done]. lia.
  - by eapply removeLine_invariant.
  - by eapply clearLines_invariant.
  - apply clearScreen_invariant.
  - eapply reIndex_invariant; [| |intros; by apply Hinv|done].
    + by apply index_invariant_NoDup.
    + intros r Hr. by apply index_invariant_in_heap.
  - by apply click_invariant.
  - by apply (index_invariant_ext s).
Qed.

Lemma rtc_step_invariant s s' :
  rtc step s s' → index_invariant s → index_invariant s'.
Proof.
  induction 1 as [|x y z Hxy Hyz IH]; [done|].
  intros Hx. apply IH. by eapply step_invariant.
Qed.

Lemma initial_invariant sd : index_invariant (initial sd).
Proof. intros i r Hi. discriminate. Qed.

(** C1: in every reachable state, after any documented mutation has
    completed ([pushLine], [insertAfter] with an existing index,
    [removeLine], [clearLines], [clearScreen], [reIndex], and also [click]
    and the deferred [pushLine] callbacks), [list[i].index == i] for every
    position [i]: the indices are exactly [0 .. length-1]. *)
Theorem index_invariant_reachable s :
  reachable s → index_invariant s.
Proof.
  intros [sd Hrtc]. eapply rtc_step_invariant; [exact Hrtc|].
  apply initial_invariant.
Qed.

Lemma index_invariant_reachable_witness :
  reachable bufABC ∧ index_invariant bufABC.
Proof.
  assert (H : reachable bufABC).
  { exists false. unfold bufABC.
    eapply rtc_l; [apply step_pushLine|].
    eapply rtc_l; [apply step_pushLine|].
    eapply rtc_l; [apply step_pushLine|].
    apply rtc_refl. }
  split; [exact H|exact (index_invariant_reachable bufABC H)].
Defined.

(** C2: on a buffer satisfying the index invariant, [insertAfter(line, k)]
    with an existing index [k] yields a buffer one longer; the line object
    sits at position [k+1] with [index == k+1]; every entry whose index was
    greater than [k] moves one position up and has its index increased by
    exactly 1; entries with index at most [k] keep their position and are
    untouched; the invariant holds again; and the only box call is
    [insertLine(k+1, sanitize(line))]. *)
Theorem insertAfter_shifts line k s :
  index_invariant s → (0 <= k < Z.of_nat (length (lines s)))%Z →
  ∃ s' r, insertAfter line k s = Ok s' ∧
    length (lines s') = S (length (lines s)) ∧
    lines s' !! Z.to_nat (k + 1) = Some r ∧
    heap s' !! r = Some (set_index (k + 1) line) ∧
    (∀ j q l, lines s !! j = Some q → heap s !! q = Some l →
       ((k < index l)%Z →
          lines s' !! S j = Some q ∧
          heap s' !! q = Some (set_index (index l + 1) l)) ∧
       ((index l <= k)%Z →
          lines s' !! j = Some q ∧ heap s' !! q = Some l)) ∧
    index_invariant s' ∧
    effects s' = effects s ++ [InsertLine (k + 1) (sanitize (text line))].
Proof.
  intros Hinv Hk.
  assert (Hk1 : (0 <= k + 1 <= Z.of_nat (length (lines s)))%Z) by lia.
  pose proof (insertAfter_Ok line k s Hk1) as Hok. cbv zeta in Hok.
  eexists _, (fresh (dom (heap s))). split; [exact Hok|].
  cbn [lines heap effects].
  assert (Hp : Z.to_nat (k + 1) ≤ length (lines s)) by lia.
  split; [|split; [|split; [|split; [|split]]]].
  - rewrite length_app, length_take_le by done. simpl.
    rewrite length_drop. lia.
  - by apply insert_lookup_eq.
  - by apply insert_heap_new.
  - intros j q l Hq Hl.
    destruct (Hinv _ _ Hq) as (l' & Hl' & Hj). rewrite Hl in Hl'.
    injection Hl' as <-. split; intros Hcmp.
    + split.
      * rewrite insert_lookup_gt by lia. done.
      * rewrite (insert_heap_after line k s Hinv j q) by (done || lia).
        by rewrite Hl.
    + split.
      * rewrite insert_lookup_lt by lia. done.
      * rewrite (insert_heap_before line k s Hinv j q) by (done || lia).
        done.
  - eapply insertAfter_invariant; [exact Hinv|exact Hk1|exact Hok].
  - done.
Qed.

Lemma insertAfter_shifts_witness :
  index_invariant bufABC ∧ (0 <= 1 < Z.of_nat (length (lines bufABC)))%Z ∧
  ∃ s' r, insertAfter lineX 1 bufABC = Ok s' ∧
    length (lines s') = S (length (lines bufABC)) ∧
    lines s' !! Z.to_nat (1 + 1) = Some r ∧
    heap s' !! r = Some (set_index (1 + 1) lineX) ∧
    (∀ j q l, lines bufABC !! j = Some q → heap bufABC !! q = Some l →
       ((1 < index l)%Z →
          lines s' !! S j = Some q ∧
          heap s' !! q = Some (set_index (index l + 1) l)) ∧
       ((index l <= 1)%Z →
          lines s' !! j = Some q ∧ heap s' !! q = Some l)) ∧
    index_invariant s' ∧
    effects s' = effects bufABC ++
                 [InsertLine (1 + 1) (sanitize (text lineX))].
Proof.
  assert (Hinv : index_invariant bufABC).
  { unfold bufABC. do 3 apply pushLine_invariant. exact (initial_invariant false). }
  assert (Hk : (0 <= 1 < Z.of_nat (length (lines bufABC)))%Z).
  { change (length (lines bufABC)) with 3. lia. }
  split; [exact Hinv|split; [exact Hk|]].
  exact (insertAfter_shifts lineX 1 bufABC Hinv Hk).
Defined.

(** ** Removal of several positions *)

Section KeepFrom.
Context {A : Type}.
Implicit Types (l : list A) (P Q : nat → bool).

Lemma keep_from_ext P Q n l :
  (∀ j, n ≤ j → P j = Q j) → keep_from P n l = keep_from Q n l.
Proof.
  revert n; induction l as [|x l IH]; intros n Hpq; simpl; [done|].
  rewrite (Hpq n) by lia. rewrite (IH (S n)) by (intros; apply Hpq; lia).
  done.
Qed.

Lemma keep_from_all P n l :
  (∀ j, n ≤ j → P j = true) → keep_from P n l = l.
Proof.
  revert n; induction l as [|x l IH]; intros n Hp; simpl; [done|].
  rewrite (Hp n) by lia. f_equal. apply IH. intros; apply Hp; lia.
Qed.

Lemma delete_keep_from l p n :
  delete p l = keep_from (fun j => negb (Nat.eqb j (p + n))) n l.
Proof.
  revert p n; induction l as [|x l IH]; intros p n; simpl; [done|].
  destruct p as [|p]; simpl.
  - rewrite Nat.eqb_refl. simpl. symmetry. apply keep_from_all.
    intros j Hj. apply negb_true_iff, Nat.eqb_neq. lia.
  - replace (Nat.eqb n (S (p + n))) with false
      by (symmetry; apply Nat.eqb_neq; lia).
    simpl. f_equal. rewrite (IH p (S n)).
    apply keep_from_ext. intros j _. by rewrite Nat.add_succ_r.
Qed.

Lemma keep_from_keep_from Q p n l :
  n ≤ p → (∀ j, p ≤ j → Q j = true) →
  keep_from Q n (keep_from (fun j => negb (Nat.eqb j p)) n l) =
  keep_from (fun j => Q j && negb (Nat.eqb j p)) n l.
Proof.
  revert n; induction l as [|x l IH]; intros n Hn HQ; simpl; [done|].
  destruct (Nat.eqb_spec n p) as [->|Hne]; simpl.
  - rewrite andb_false_r.
    rewrite (keep_from_all _ (S p) l) by
      (intros j Hj; apply negb_true_iff, Nat.eqb_neq; lia).
    rewrite keep_from_all by (intros j Hj; apply HQ; lia).
    symmetry. apply keep_from_all. intros j Hj.
    rewrite HQ by lia. simpl. apply negb_true_iff, Nat.eqb_neq. lia.
  - rewrite andb_true_r. rewrite IH by (done || lia). done.
Qed.
End KeepFrom.

(** Deleting positions in strictly descending order removes exactly the
    entries at those positions of the original array. *)
Lemma remove_desc (l : list nat) (ps : list Z) :
  StronglySorted (fun a b => (b < a)%Z) ps → Forall (fun p => (0 <= p)%Z) ps →
  foldl splice_remove l ps = survivors ps l.
Proof.
  unfold survivors. revert l; induction ps as [|p ps IH]; intros l Hs Hnn; cbn [foldl].
  - symmetry. apply keep_from_all. intros j _.
    rewrite bool_decide_eq_false_2; [done|]. apply not_elem_of_nil.
  - apply StronglySorted_cons in Hs as [Hlt Hs].
    apply Forall_cons in Hnn as [Hp Hnn].
    assert (Hsp : splice_remove l p = delete (Z.to_nat p) l).
    { unfold splice_remove. by rewrite (proj2 (Z.ltb_ge p 0) ltac:(lia)). }
    rewrite Hsp, IH by done.
    rewrite (delete_keep_from l (Z.to_nat p) 0), Nat.add_0_r.
    rewrite keep_from_keep_from; [|lia|].
    + apply keep_from_ext. intros j _.
      destruct (Nat.eqb_spec j (Z.to_nat p)) as [->|Hne]; simpl.
      * rewrite andb_false_r. symmetry. apply negb_false_iff.
        apply bool_decide_eq_true_2. apply elem_of_cons. left. lia.
      * rewrite andb_true_r. f_equal. apply bool_decide_ext.
        rewrite elem_of_cons. split; [by right|]. intros [Heq|?]; [lia|done].
    + intros j Hj. apply negb_true_iff, bool_decide_eq_false_2. intros Hin.
      rewrite Forall_forall in Hlt. specialize (Hlt _ Hin). lia.
Qed.

Lemma remove_desc_length (l : list nat) (ps : list Z) :
  StronglySorted (fun a b => (b < a)%Z) ps →
  Forall (fun p => (0 <= p < Z.of_nat (length l))%Z) ps →
  length (foldl splice_remove l ps) = length l - length ps.
Proof.
  revert l; induction ps as [|p ps IH]; intros l Hs Hr; simpl; [lia|].
  apply StronglySorted_cons in Hs as [Hlt Hs].
  apply Forall_cons in Hr as [Hp Hr].
  assert (Hsp : splice_remove l p = delete (Z.to_nat p) l).
  { unfold splice_remove. by rewrite (proj2 (Z.ltb_ge p 0) ltac:(lia)). }
  assert (Hlen : length (delete (Z.to_nat p) l) = length l - 1).
  { apply length_delete, lookup_lt_is_Some. lia. }
  rewrite Hsp, IH; [lia|done|].
  rewrite Forall_forall in Hlt, Hr |- *. intros q Hq.
  specialize (Hlt q Hq). specialize (Hr q Hq). rewrite Hlen. lia.
Qed.

Lemma StronglySorted_le_lt (l : list Z) :
  StronglySorted Z.le l → NoDup l → StronglySorted Z.lt l.
Proof.
  induction l as [|x l IH]; intros Hs Hnd; [constructor|].
  apply StronglySorted_cons in Hs as [Hle Hs].
  apply NoDup_cons in Hnd as [Hx Hnd].
  apply StronglySorted_cons. split; [|by apply IH].
  rewrite Forall_forall in Hle |- *. intros y Hy.
  specialize (Hle y Hy). assert (x ≠ y) by (intros ->; contradiction). lia.
Qed.

Lemma StronglySorted_reverse {A} (R : relation A) (l : list A) :
  StronglySorted R l → StronglySorted (fun a b => R b a) (reverse l).
Proof.
  induction l as [|x l IH]; intros Hs; [constructor|].
  apply StronglySorted_cons in Hs as [Hx Hs].
  rewrite reverse_cons. apply StronglySorted_app_2.
  - intros x1 x2 H1 H2. apply list_elem_of_singleton in H2 as ->.
    rewrite elem_of_reverse in H1. rewrite Forall_forall in Hx. by apply Hx.
  - by apply IH.
  - repeat constructor.
Qed.

(** The order in which [clearLines] deletes: strictly descending. *)
Lemma clearLines_order (ids : list Z) :
  NoDup ids →
  StronglySorted (fun a b => (b < a)%Z) (reverse (flashsort ids)) ∧
  reverse (flashsort ids) ≡ₚ ids.
Proof.
  intros Hnd. assert (Hp : flashsort ids ≡ₚ ids) by apply merge_sort_Permutation.
  split.
  - apply (StronglySorted_reverse Z.lt).
    apply StronglySorted_le_lt.
    + unfold flashsort. apply (StronglySorted_merge_sort Z.le).
    + by rewrite Hp.
  - by rewrite reverse_Permutation.
Qed.

Lemma flashsort_head_nonneg (ids : list Z) :
  Forall (fun p => (0 <= p)%Z) ids → (0 <= default 0%Z (head (flashsort ids)))%Z.
Proof.
  intros Hnn. destruct (flashsort ids) as [|h t] eqn:Hs; simpl; [lia|].
  assert (Hh : h ∈ ids).
  { rewrite <- (merge_sort_Permutation Z.le ids). fold (flashsort ids).
    rewrite Hs. apply elem_of_cons. by left. }
  rewrite Forall_forall in Hnn. by apply Hnn.
Qed.

Lemma clearLines_Ok (ids : list Z) s :
  Forall (fun p => (0 <= p)%Z) ids →
  let ds := reverse (flashsort ids) in
  let m := Z.to_nat (default 0%Z (head (flashsort ids))) in
  let L := foldl splice_remove (lines s) ds in
  clearLines ids s =
    Ok (mkLogList (reindex_from (drop m L) (Z.of_nat m) (heap s)) L
          (selectedLine s) (list_selectedLine s) (scrollDown s) (pending s)
          (effects s ++ map DeleteLine ds)).
Proof.
  intros Hnn ds m L. pose proof (flashsort_head_nonneg ids Hnn) as Hz.
  unfold clearLines. rewrite clearLines_fold. unfold reIndex.
  rewrite (proj2 (Z.ltb_ge _ 0) Hz). cbn [lines heap].
  subst m. rewrite Z2Nat.id by done. reflexivity.
Qed.

(** C3: let [ids] be the indices collected by the subtree traversal of
    the line at position [k] (its own index and those of its [C]
    descendants, so [length ids = C + 1]), a set of existing indices.
    [removeLine(k)] removes exactly [length ids] entries, namely those at
    the positions in [ids], keeping the others in order; it deletes the
    rows from the box one by one in strictly descending order of index,
    then requests a render; afterwards the invariant holds again: entries
    before the minimum removed index are untouched, and every entry from
    there on gets its new position as index. *)
Theorem removeLine_removes_subtree k s r :
  index_invariant s → lines s !! k = Some r →
  NoDup (getAllIndices s r) →
  Forall (fun p => 0 <= p < Z.of_nat (length (lines s)))%Z (getAllIndices s r) →
  let ids := getAllIndices s r in
  let ds := reverse (flashsort ids) in
  let min := default 0%Z (head (flashsort ids)) in
  ∃ s', removeLine (Z.of_nat k) s = Ok s' ∧
    length (lines s') = length (lines s) - length ids ∧
    effects s' = effects s ++ map DeleteLine ds ++ [Render] ∧
    StronglySorted (fun a b => (b < a)%Z) ds ∧ ds ≡ₚ ids ∧
    lines s' = survivors ids (lines s) ∧
    index_invariant s' ∧
    (∀ j q, lines s' !! j = Some q →
       ((Z.of_nat j < min)%Z →
          lines s !! j = Some q ∧ heap s' !! q = heap s !! q) ∧
       ((min <= Z.of_nat j)%Z →
          heap s' !! q = set_index (Z.of_nat j) <$> heap s !! q)).
Proof.
  intros Hinv Hk Hnd Hrange ids ds min.
  assert (Hnn : Forall (fun p => (0 <= p)%Z) ids).
  { eapply Forall_impl; [exact Hrange|]. intros p Hp; cbv beta in Hp; lia. }
  destruct (clearLines_order ids Hnd) as [Hdesc Hperm]. fold ds in Hdesc, Hperm.
  assert (Hds : Forall (fun p => 0 <= p < Z.of_nat (length (lines s)))%Z ds).
  { apply Forall_forall. intros p Hp. rewrite Hperm in Hp.
    rewrite Forall_forall in Hrange. by apply Hrange. }
  pose proof (flashsort_head_nonneg ids Hnn) as Hmin. fold min in Hmin.
  set (m := Z.to_nat min).
  set (L := foldl splice_remove (lines s) ds).
  destruct (remove_from_prefix (lines s) ds m) as [Htake Hsub].
  { intros p Hp. pose proof (flashsort_head_le ids p) as Hle.
    unfold ds in Hp. rewrite elem_of_reverse in Hp. specialize (Hle Hp). fold min in Hle.
    subst m. split; lia. }
  fold L in Htake, Hsub.
  assert (HndL : NoDup L).
  { eapply sublist_NoDup; [apply (index_invariant_NoDup s Hinv)|exact Hsub]. }
  set (s1 := mkLogList (reindex_from (drop m L) (Z.of_nat m) (heap s)) L
               (selectedLine s) (list_selectedLine s) (scrollDown s)
               (pending s) (effects s ++ map DeleteLine ds)).
  assert (Hcl : clearLines ids s = Ok s1) by (apply clearLines_Ok, Hnn).
  exists (emit [Render] s1). split.
  { unfold removeLine, jsget.
    rewrite (proj2 (Z.leb_le 0 (Z.of_nat k)) ltac:(lia)).
    rewrite Nat2Z.id, Hk. fold ids. by rewrite Hcl. }
  cbn [lines heap effects emit s1].
  split; [|split; [|split; [done|split; [done|split; [|split]]]]].
  - subst L. rewrite remove_desc_length by done.
    by rewrite (Permutation_length Hperm).
  - by rewrite <- app_assoc.
  - subst L. rewrite remove_desc; [|done|].
    + unfold survivors. apply keep_from_ext. intros j _.
      f_equal. apply bool_decide_ext. by rewrite Hperm.
    + eapply Forall_impl; [exact Hds|]. intros p Hp; cbv beta in Hp; lia.
  - apply (index_invariant_ext s1); [done|done|].
    eapply clearLines_invariant; [exact Hinv|exact Hcl].
  - intros j q Hj. split; intros Hcmp.
    + assert (HjL : lines s !! j = Some q).
      { rewrite <- (lookup_take_lt _ m j) by lia. rewrite <- Htake.
        rewrite lookup_take_lt by lia. exact Hj. }
      split; [exact HjL|].
      rewrite reindex_from_notin; [done|].
      intros Hin. apply list_elem_of_lookup in Hin as [j' Hj'].
      rewrite lookup_drop in Hj'.
      pose proof (NoDup_lookup _ _ _ _ HndL Hj Hj'). lia.
    + assert (Hj' : drop m L !! (j - m) = Some q).
      { rewrite lookup_drop. rewrite <- Hj. f_equal. lia. }
      rewrite (reindex_from_at _ _ _ _ _ (sublist_NoDup _ _ HndL (sublist_drop _ _)) Hj').
      do 2 f_equal. lia.
Qed.

Lemma removeLine_removes_subtree_witness :
  index_invariant bufP ∧ lines bufP !! 0 = Some 0 ∧
  NoDup (getAllIndices bufP 0) ∧
  Forall (fun p => 0 <= p < Z.of_nat (length (lines bufP)))%Z
    (getAllIndices bufP 0) ∧
  ∃ s', removeLine (Z.of_nat 0) bufP = Ok s' ∧
    length (lines s') = length (lines bufP) - length (getAllIndices bufP 0) ∧
    index_invariant s'.
Proof.
  assert (Hinv : index_invariant bufP).
  { unfold bufP. do 3 apply pushLine_invariant. exact (initial_invariant false). }
  assert (Hk : lines bufP !! 0 = Some 0) by reflexivity.
  assert (Hnd : NoDup (getAllIndices bufP 0)).
  { apply (bool_decide_unpack _). vm_compute. exact I. }
  assert (Hr : Forall (fun p => 0 <= p < Z.of_nat (length (lines bufP)))%Z
                 (getAllIndices bufP 0)).
  { apply (bool_decide_unpack _). vm_compute. exact I. }
  do 4 (split; [assumption|]).
  destruct (removeLine_removes_subtree 0 bufP 0 Hinv Hk Hnd Hr)
    as (s' & Hok & Hlen & _ & _ & _ & _ & Hinv' & _).
  exists s'. split; [exact Hok|split; [exact Hlen|exact Hinv']].
Defined.

(** ** insertAfter outside the existing indices *)

(** C4 as stated fails: [insertAfter(line, -1)] names an index that does
    not exist, and the call completes normally instead of being rejected. *)
Lemma insertAfter_minus_one_accepted :
  ¬ (∀ line k s, (k < 0 ∨ Z.of_nat (length (lines s)) <= k)%Z →
       ∀ s', insertAfter line k s ≠ Ok s').
Proof.
  intros H. destruct (insertAfter lineX (-1) bufA) as [s'| |] eqn:E.
  - exact (H lineX (-1)%Z bufA (or_introl eq_refl) s' E).
  - vm_compute in E. discriminate.
  - vm_compute in E. discriminate.
Qed.

(** C4 (amended): [insertAfter] performs no check on [afterIndex].  With
    [afterIndex = -1], an index that does not exist, the call completes:
    the line is put at position 0 with index 0 and every existing entry
    moves up one position with its index increased by 1, so the invariant
    still holds. *)
Theorem insertAfter_no_range_check line s :
  index_invariant s →
  ∃ s', insertAfter line (-1) s = Ok s' ∧
    lines s' = fresh (dom (heap s)) :: lines s ∧
    heap s' !! fresh (dom (heap s)) = Some (set_index 0 line) ∧
    (∀ j q l, lines s !! j = Some q → heap s !! q = Some l →
       heap s' !! q = Some (set_index (index l + 1) l)) ∧
    index_invariant s'.
Proof.
  intros Hinv.
  assert (Hk : (0 <= -1 + 1 <= Z.of_nat (length (lines s)))%Z) by lia.
  pose proof (insertAfter_Ok line (-1) s Hk) as Hok. cbv zeta in Hok.
  eexists. split; [exact Hok|]. cbn [lines heap].
  split; [done|split; [|split]].
  - apply (insert_heap_new line (-1) s Hinv).
  - intros j q l Hq Hl.
    rewrite (insert_heap_after line (-1) s Hinv j q) by (done || lia).
    by rewrite Hl.
  - eapply insertAfter_invariant; [exact Hinv|exact Hk|exact Hok].
Qed.

Lemma insertAfter_no_range_check_witness :
  index_invariant bufABC ∧
  ∃ s', insertAfter lineX (-1) bufABC = Ok s' ∧
    lines s' = fresh (dom (heap bufABC)) :: lines bufABC ∧
    heap s' !! fresh (dom (heap bufABC)) = Some (set_index 0 lineX) ∧
    (∀ j q l, lines bufABC !! j = Some q → heap bufABC !! q = Some l →
       heap s' !! q = Some (set_index (index l + 1) l)) ∧
    index_invariant s'.
Proof.
  assert (Hinv : index_invariant bufABC).
  { unfold bufABC. do 3 apply pushLine_invariant. exact (initial_invariant false). }
  split; [exact Hinv|exact (insertAfter_no_range_check lineX bufABC Hinv)].
Defined.

(** ** clearLines with no index *)

Lemma reindex_from_id s :
  index_invariant s → reindex_from (lines s) 0 (heap s) = heap s.
Proof.
  intros Hinv. apply map_eq. intros q.
  destruct (decide (q ∈ lines s)) as [Hin|Hnin].
  - apply list_elem_of_lookup in Hin as [j Hj].
    rewrite (reindex_from_at _ _ _ j q (index_invariant_NoDup s Hinv) Hj).
    destruct (Hinv _ _ Hj) as (l & Hl & Hli). rewrite Hl. simpl.
    f_equal. destruct l; simpl in *. by rewrite Hli.
  - by apply reindex_from_notin.
Qed.

(** C10: on a buffer satisfying the invariant, [clearLines([])] returns
    the buffer exactly as it was: no entry removed, every index unchanged,
    no box call (in particular no [deleteLine]). *)
Theorem clearLines_nil_frame s :
  index_invariant s → clearLines [] s = Ok s.
Proof.
  intros Hinv. unfold clearLines. rewrite clearLines_fold.
  change (flashsort []) with (@nil Z). simpl.
  unfold reIndex. simpl. change (Z.to_nat 0) with 0%nat. rewrite drop_0.
  rewrite (reindex_from_id s Hinv).
  destruct s; simpl. by rewrite app_nil_r.
Qed.

Lemma clearLines_nil_frame_witness :
  index_invariant bufABC ∧ clearLines [] bufABC = Ok bufABC.
Proof.
  assert (Hinv : index_invariant bufABC).
  { unfold bufABC. do 3 apply pushLine_invariant. exact (initial_invariant false). }
  split; [exact Hinv|exact (clearLines_nil_frame bufABC Hinv)].
Defined.

(** ** clearScreen and the selected line *)

Lemma reIndex_list_selectedLine st s s' :
  reIndex st s = Ok s' → list_selectedLine s' = list_selectedLine s.
Proof. unfold reIndex. case_match; intros [= <-]; reflexivity. Qed.

Lemma clearLines_list_selectedLine ids s s' :
  clearLines ids s = Ok s' → list_selectedLine s' = list_selectedLine s.
Proof.
  unfold clearLines. rewrite clearLines_fold. intros H.
  by rewrite (reIndex_list_selectedLine _ _ _ H).
Qed.

(** No entry point writes the [selectedLine] property of the array
    [this.list]. *)
Lemma step_list_selectedLine s s' :
  step s s' → list_selectedLine s' = list_selectedLine s.
Proof.
  destruct 1 as [line defer s|line k s s' Hk Hok|k s s' Hok|ids s s' Hok|s
    |st s s' Hok|i x y s|s].
  - unfold pushLine. by destruct defer.
  - revert Hok. unfold insertAfter. case_match; [discriminate|].
    intros [= <-]. reflexivity.
  - revert Hok. unfold removeLine.
    destruct (jsget (lines s) k); [|by intros [= <-]].
    destruct (clearLines _ s) as [s1| |] eqn:Hcl; intros [= <-].
    by apply (clearLines_list_selectedLine _ _ _ Hcl).
  - by apply (clearLines_list_selectedLine _ _ _ Hok).
  - unfold clearScreen. destruct (list_selectedLine s) eqn:E; simpl; congruence.
  - by apply (reIndex_list_selectedLine _ _ _ Hok).
  - unfold click. destruct (jsget (lines s) i); [|done].
    unfold select. by destruct (selectedLine s).
  - reflexivity.
Qed.

Lemma reachable_list_selectedLine s :
  reachable s → list_selectedLine s = None.
Proof.
  intros [sd Hrtc].
  assert (H : ∀ x y, rtc step x y → list_selectedLine y = list_selectedLine x).
  { induction 1 as [|x y z Hxy Hyz IH]; [done|].
    rewrite IH. by apply step_list_selectedLine. }
  by rewrite (H _ _ Hrtc).
Qed.

(** C5 (code bug): in every reachable state [clearScreen()] leaves the
    heap of LogLine objects as it was, so a selected line keeps
    [selected == true]: the code tests [this.list.selectedLine], a property
    of the array that nothing sets, instead of [this.selectedLine].  It
    does empty the list and clear the box ([setContent('')], then
    [render()]), and [this.selectedLine] still names the old line. *)
Theorem clearScreen_keeps_selection s :
  reachable s →
  heap (clearScreen s) = heap s ∧
  selectedLine (clearScreen s) = selectedLine s ∧
  lines (clearScreen s) = [] ∧
  effects (clearScreen s) = effects s ++ [SetContent []; Render].
Proof.
  intros Hr. unfold clearScreen. rewrite (reachable_list_selectedLine s Hr).
  repeat split.
Qed.

Lemma clearScreen_keeps_selection_witness :
  reachable bufClicked ∧
  selectedLine bufClicked = Some 0 ∧
  selected <$> heap bufClicked !! 0 = Some true ∧
  lines (clearScreen bufClicked) = [] ∧
  selected <$> heap (clearScreen bufClicked) !! 0 = Some true.
Proof.
  assert (H : reachable bufClicked).
  { exists false. unfold bufClicked.
    eapply rtc_r; [|apply (step_click 0 0 0)].
    unfold bufABC.
    eapply rtc_l; [apply step_pushLine|].
    eapply rtc_l; [apply step_pushLine|].
    eapply rtc_l; [apply step_pushLine|].
    apply rtc_refl. }
  destruct (clearScreen_keeps_selection bufClicked H) as (Hh & _ & Hl & _).
  split; [exact H|]. split; [vm_compute; reflexivity|].
  split; [vm_compute; reflexivity|]. split; [exact Hl|].
  rewrite Hh. vm_compute. reflexivity.
Defined.

(** ** scroll *)

(** C6 as stated fails: at the bottom edge of a scrollable box the scroll
    percentage is 100 before and after [scroll(1)], and the code makes no
    reverting [box.scroll(-1)] call: it reverts only when both
    percentages are 0. *)
Lemma scroll_equal_perc_not_reverted :
  ¬ (∀ d b, Qeq (sb_perc b) (sb_perc (sb_scroll d b)) →
       scroll ScrollBox sb_perc sb_scroll (Some d) b =
         sb_scroll (0 - d) (sb_scroll d b) ∧
       scroll ScrollBox sb_perc sb_scroll (Some d) b = b).
Proof.
  intros H. destruct (H 1%Z (mkScrollBox 10%Z 10%Z)) as [H1 _].
  - vm_compute. reflexivity.
  - vm_compute in H1. congruence.
Qed.

(** On the top edge of a scrollable box, [scroll(-1)] reverts with
    [box.scroll(1)], which moves the view one line down. *)
Example scroll_top_edge_up :
  scroll ScrollBox sb_perc sb_scroll (Some (-1)%Z) (mkScrollBox 0%Z 10%Z) =
    mkScrollBox 1%Z 10%Z.
Proof. vm_compute. reflexivity. Qed.

(** C6 (amended): [scroll(d)] calls [box.scroll(d)]; it then calls
    [box.scroll(0 - d)] exactly when [getScrollPerc()] is 0 both before
    and after the first call, and otherwise leaves the box as the first
    call left it.  A missing direction is 1. *)
Theorem scroll_reverts_only_at_zero (Box : Type) (perc : Box → Q)
    (sc : Z → Box → Box) (d : Z) (b : Box) :
  ((Qeq (perc b) 0 ∧ Qeq (perc (sc d b)) 0) →
     scroll Box perc sc (Some d) b = sc (0 - d)%Z (sc d b)) ∧
  (¬ (Qeq (perc b) 0 ∧ Qeq (perc (sc d b)) 0) →
     scroll Box perc sc (Some d) b = sc d b) ∧
  scroll Box perc sc None b = scroll Box perc sc (Some 1%Z) b.
Proof.
  unfold scroll; simpl. split; [|split].
  - intros [H1 H2].
    rewrite (proj2 (Qeq_bool_iff _ _) H1), (proj2 (Qeq_bool_iff _ _) H2).
    reflexivity.
  - intros Hn.
    destruct (Qeq_bool (perc b) 0) eqn:E1; [|reflexivity].
    destruct (Qeq_bool (perc (sc d b)) 0) eqn:E2; [|reflexivity].
    exfalso. apply Hn. split; by apply Qeq_bool_iff.
  - reflexivity.
Qed.

Lemma scroll_reverts_only_at_zero_witness :
  scroll ScrollBox sb_perc sb_scroll (Some 1%Z) (mkScrollBox 10%Z 10%Z) =
    mkScrollBox 10%Z 10%Z.
Proof.
  destruct (scroll_reverts_only_at_zero ScrollBox sb_perc sb_scroll 1%Z
              (mkScrollBox 10%Z 10%Z)) as (_ & H & _).
  rewrite H; [vm_compute; reflexivity|].
  intros [H1 _]. vm_compute in H1. discriminate.
Defined.

(** ** sanitize *)

Lemma sanitize_app s1 s2 : sanitize (s1 ++ s2) = sanitize s1 ++ sanitize s2.
Proof. unfold sanitize. apply flat_map_app. Qed.

(** C8 as stated fails: [sanitize] does not put a single marker character
    in place of a line break; [sanitize("\n")] is two code units long. *)
Lemma sanitize_marker_not_single :
  ¬ ∃ marker : Z, ∀ s,
      sanitize s = map (fun c => if Z.eqb c 10 then marker else c) s.
Proof. intros [mk H]. specialize (H [10%Z]). vm_compute in H. discriminate. Qed.

(** C8 (amended): [sanitize] is the identity on text without ['\n'], its
    result never contains ['\n'], and each ['\n'] becomes the marker
    U+23CE followed by a space. *)
Theorem sanitize_marker_and_space :
  (∀ s, 10%Z ∉ s → sanitize s = s) ∧
  (∀ s, 10%Z ∉ sanitize s) ∧
  (∀ s1 s2, sanitize (s1 ++ 10%Z :: s2) =
              sanitize s1 ++ [9166%Z; 32%Z] ++ sanitize s2).
Proof.
  split; [|split].
  - induction s as [|c s IH]; [done|]. intros Hn.
    rewrite not_elem_of_cons in Hn. destruct Hn as [Hc Hn].
    change (c :: s) with ([c] ++ s). rewrite sanitize_app, IH by done.
    unfold sanitize. simpl. by rewrite (proj2 (Z.eqb_neq c 10) (not_eq_sym Hc)).
  - induction s as [|c s IH]; [by intros ?%not_elem_of_nil|].
    change (c :: s) with ([c] ++ s). rewrite sanitize_app, elem_of_app.
    intros [H|H]; [|done]. unfold sanitize in H. simpl in H.
    rewrite app_nil_r in H. revert H.
    destruct (Z.eqb_spec c 10); rewrite !elem_of_cons; intros H;
      destruct_or! H; first [lia | set_solver].
  - intros s1 s2. rewrite sanitize_app.
    change (10%Z :: s2) with ([10%Z] ++ s2). by rewrite sanitize_app.
Qed.

Lemma sanitize_marker_and_space_witness :
  sanitize [97%Z; 10%Z; 98%Z] = [97%Z; 9166%Z; 32%Z; 98%Z].
Proof.
  destruct sanitize_marker_and_space as (_ & _ & H).
  change [97%Z; 10%Z; 98%Z] with ([97%Z] ++ 10%Z :: [98%Z]).
  rewrite (H [97%Z] [98%Z]). reflexivity.
Defined.

(** ** extractLineInfo *)

(** A successful match records one capture boundary per [Mark]. *)
Lemma m_caps items : ∀ s pos caps c,
  m items s pos caps = Some c → length c = length caps + nmarks items.
Proof.
  induction items as [|it items IH]; intros s pos caps c; simpl.
  - intros [= <-]. lia.
  - destruct it as [|ch| |cls|cls]; simpl.
    + destruct (Nat.eqb pos 0); [apply IH|discriminate].
    + destruct s as [|x s']; [discriminate|].
      destruct (x =? ch)%Z; [apply IH|discriminate].
    + intros H. apply IH in H. rewrite length_app in H. simpl in H. lia.
    + revert pos. induction s as [|x s' IHs]; intros pos.
      * destruct (m items [] pos caps) eqn:E; [|discriminate].
        intros [= <-]. by apply (IH _ _ _ _ E).
      * destruct (m items (x :: s') pos caps) eqn:E.
        { intros [= <-]. by apply (IH _ _ _ _ E). }
        destruct (cls x); [apply IHs|discriminate].
    + revert pos. induction s as [|x s' IHs]; intros pos.
      * apply IH.
      * destruct (cls x); [|apply IH].
        destruct (_ s' (S pos)) eqn:E.
        { intros [= <-]. by apply (IHs _ E). }
        apply IH.
Qed.

Lemma exec_from_caps re s : ∀ pos c,
  exec_from re s pos = Some c → length c = nmarks re.
Proof.
  induction s as [|x s IH]; intros pos c; simpl.
  - destruct (m re [] pos []) eqn:E; [|discriminate].
    intros [= <-]. by apply (m_caps _ _ _ _ _ E).
  - destruct (m re (x :: s) pos []) eqn:E.
    + intros [= <-]. by apply (m_caps _ _ _ _ _ E).
    + apply IH.
Qed.

(** Group [g] of a match with at least [2 * g] boundaries is a string. *)
Lemma group_Some input caps g :
  1 ≤ g → 2 * g ≤ length caps → ∃ v, group input caps g = Some v.
Proof.
  intros Hg Hl. unfold group.
  destruct (lookup_lt_is_Some_2 caps (2 * g - 2)) as [a Ha]; [lia|].
  destruct (lookup_lt_is_Some_2 caps (2 * g - 1)) as [b Hb]; [lia|].
  rewrite Ha, Hb. by eexists.
Qed.

Lemma exec_Some re n input res :
  exec re n input = Some res →
  ∃ caps, length caps = nmarks re ∧
    res = map (group input caps) (seq 1 n).
Proof.
  unfold exec. destruct (exec_from re input 0) as [caps|] eqn:E;
    [|discriminate].
  intros [= <-]. exists caps. split; [|done].
  by apply (exec_from_caps _ _ _ _ E).
Qed.

Local Open Scope string_scope.

(** C9: [extractLineInfo] never throws and always returns a record whose
    [path] is a string and whose [file] is the last ['/']-separated part of
    it.  If the strict pattern matches, the fields are its four groups.
    Otherwise the name is ['anonymous'].  If the loose pattern matches,
    path, line and column are its three groups.  If neither matches, every
    field is a placeholder: the name is ['anonymous'] and all the other
    fields are ['unknown']. *)
Theorem extractLineInfo_total (caller_line : jsstring) :
  ∃ ci p, extractLineInfo caller_line = Some ci ∧
    path ci = Some p ∧ file ci = pop (split_on 47 p) ∧
    (∀ res, exec strict_re 4 (clean_of caller_line) = Some res →
       name ci = mjoin (res !! 0) ∧ path ci = mjoin (res !! 1) ∧
       line ci = mjoin (res !! 2) ∧ char ci = mjoin (res !! 3)) ∧
    (exec strict_re 4 (clean_of caller_line) = None →
       name ci = Some (js "anonymous") ∧
       ∀ temp, exec loose_re 3 (clean_of caller_line) = Some temp →
         path ci = mjoin (temp !! 0) ∧ line ci = mjoin (temp !! 1) ∧
         char ci = mjoin (temp !! 2)) ∧
    (exec strict_re 4 (clean_of caller_line) = None →
     exec loose_re 3 (clean_of caller_line) = None →
       name ci = Some (js "anonymous") ∧ path ci = Some (js "unknown") ∧
       file ci = Some (js "unknown") ∧ line ci = Some (js "unknown") ∧
       char ci = Some (js "unknown")).
Proof.
  unfold extractLineInfo. cbv zeta.
  set (clean := clean_of caller_line).
  destruct (exec strict_re 4 clean) as [res|] eqn:Es.
  - destruct (exec_Some _ _ _ _ Es) as (caps & Hc & ->).
    destruct (group_Some clean caps 2) as [v Hv]; [lia|rewrite Hc; simpl; lia|].
    simpl. rewrite Hv. eexists _, v. split; [reflexivity|].
    split; [reflexivity|]. split; [reflexivity|].
    split; [|split; intros; discriminate].
    intros res' [= <-]. simpl. repeat split.
  - destruct (exec loose_re 3 clean) as [temp|] eqn:El.
    + destruct (exec_Some _ _ _ _ El) as (caps & Hc & ->).
      destruct (group_Some clean caps 1) as [v Hv];
        [lia|rewrite Hc; simpl; lia|].
      simpl. rewrite Hv. eexists _, v. split; [reflexivity|].
      split; [reflexivity|]. split; [reflexivity|].
      split; [intros; discriminate|].
      split; [|intros _ ?; discriminate].
      intros _. split; [reflexivity|]. intros temp' [= <-]. simpl.
      repeat split.
    + eexists _, _. split; [reflexivity|].
      split; [reflexivity|]. split; [reflexivity|].
      split; [intros; discriminate|].
      split; [intros _; split; [reflexivity|intros; discriminate]|].
      intros _ _. repeat split.
Qed.

Lemma extractLineInfo_total_witness :
  ∃ ci, extractLineInfo stack_line_named = Some ci ∧
    name ci = Some (js "foo") ∧ file ci = Some (js "b.js").
Proof.
  destruct (extractLineInfo_total stack_line_named) as (ci & _ & E & _).
  exists ci. split; [exact E|].
  vm_compute in E. injection E as <-. split; reflexivity.
Defined.

Local Close Scope string_scope.

(** ** esc and stripEsc *)

(** A match never runs into an [ESC] code unit. *)
Lemma sgr_scan_esc st x t :
  sgr_scan st (x ++ 27%Z :: t) = sgr_scan st x.
Proof.
  revert st; induction x as [|c x IH]; intros st; [reflexivity|].
  simpl. by rewrite !IH.
Qed.

Lemma sgr_scan_prefix st x n :
  sgr_scan st x = Some n → n ≤ length x ∧ ∀ t, sgr_scan st (x ++ t) = Some n.
Proof.
  revert st n; induction x as [|c x IH]; intros st n; simpl; [discriminate|].
  destruct (digit c).
  { destruct (sgr_scan 1 x) as [k|] eqn:E; [|discriminate]. intros [= <-].
    destruct (IH _ _ E) as [Hk Ht]. split; [lia|]. intros t. by rewrite Ht. }
  destruct (Z.eqb c 59 && Nat.eqb st 1)%bool.
  { destruct (sgr_scan 2 x) as [k|] eqn:E; [|discriminate]. intros [= <-].
    destruct (IH _ _ E) as [Hk Ht]. split; [lia|]. intros t. by rewrite Ht. }
  destruct (Z.eqb c 109 && negb (Nat.eqb st 0))%bool; [|discriminate].
  intros [= <-]. split; [lia|done].
Qed.

Lemma sgr_at_esc x t :
  x ≠ [] → sgr_at (x ++ 27%Z :: t) = sgr_at x.
Proof.
  intros Hx. destruct x as [|e [|b r]]; [done| |].
  - simpl. destruct (Z.eqb e 27); reflexivity.
  - simpl. by rewrite sgr_scan_esc.
Qed.

Lemma sgr_at_prefix x n :
  sgr_at x = Some n → n ≤ length x ∧ ∀ t, sgr_at (x ++ t) = Some n.
Proof.
  destruct x as [|e [|b r]]; simpl; [discriminate|discriminate|].
  destruct (Z.eqb e 27 && Z.eqb b 91)%bool; [|discriminate].
  destruct (sgr_scan 0 r) as [k|] eqn:E; [|discriminate]. intros [= <-].
  destruct (sgr_scan_prefix _ _ _ E) as [Hk Ht]. split; [lia|].
  intros t. by rewrite Ht.
Qed.

Lemma strip_sgr_drop k s : strip_sgr k s = strip_sgr 0 (drop k s).
Proof.
  revert k; induction s as [|c s IH]; intros k; [by destruct k|].
  destruct k as [|k]; [done|]. simpl. apply IH.
Qed.

Lemma strip_sgr_cons c s :
  strip_sgr 0 (c :: s) =
    match sgr_at (c :: s) with
    | Some n => strip_sgr (n - 1) s
    | None => c :: strip_sgr 0 s
    end.
Proof. reflexivity. Qed.

(** The removal of matches distributes over a split before an [ESC]. *)
Lemma strip_sgr_app x t :
  strip_sgr 0 (x ++ 27%Z :: t) = strip_sgr 0 x ++ strip_sgr 0 (27%Z :: t).
Proof.
  remember (length x) as n eqn:Hn. revert x Hn.
  induction n as [n IH] using lt_wf_ind; intros x Hn.
  destruct x as [|c x]; [done|].
  change ((c :: x) ++ 27%Z :: t) with (c :: (x ++ 27%Z :: t)).
  rewrite !strip_sgr_cons.
  change (c :: x ++ 27%Z :: t) with ((c :: x) ++ 27%Z :: t).
  rewrite (sgr_at_esc (c :: x)) by done.
  destruct (sgr_at (c :: x)) as [m|] eqn:E.
  - destruct (sgr_at_prefix _ _ E) as [Hm _]. simpl in Hm.
    rewrite !(strip_sgr_drop (m - 1)). rewrite drop_app_le by lia.
    apply (IH (length (drop (m - 1) x))); [rewrite length_drop; simpl in Hn; lia|done].
  - simpl in Hn. rewrite (IH (length x)) by lia. reflexivity.
Qed.

(** A prefix that is one whole match is dropped. *)
Lemma strip_sgr_full x t :
  sgr_at x = Some (length x) → strip_sgr 0 (x ++ t) = strip_sgr 0 t.
Proof.
  intros H. destruct (sgr_at_prefix _ _ H) as [_ Ht].
  destruct x as [|c x]; [discriminate|].
  change ((c :: x) ++ t) with (c :: (x ++ t)). rewrite strip_sgr_cons.
  change (c :: x ++ t) with ((c :: x) ++ t). rewrite Ht. simpl.
  rewrite strip_sgr_drop, Nat.sub_0_r. by rewrite drop_app_length.
Qed.

Lemma strip_sgr_no_esc s : 27%Z ∉ s → strip_sgr 0 s = s.
Proof.
  induction s as [|c s IH]; intros Hn; [done|].
  apply not_elem_of_cons in Hn as [Hc Hn]. rewrite strip_sgr_cons.
  assert (Hat : sgr_at (c :: s) = None).
  { destruct s as [|b r]; [done|]. simpl.
    by rewrite (proj2 (Z.eqb_neq c 27) (not_eq_sym Hc)). }
  rewrite Hat. by rewrite IH.
Qed.

Lemma replace_first_lit_no_backslash s : 92%Z ∉ s → replace_first lit_at s = s.
Proof.
  induction s as [|c s IH]; intros Hn; [done|].
  apply not_elem_of_cons in Hn as [Hc Hn].
  change (replace_first lit_at (c :: s)) with
    (match lit_at (c :: s) with
     | Some n => drop n (c :: s)
     | None => c :: replace_first lit_at s
     end).
  assert (Hat : lit_at (c :: s) = None).
  { destruct s as [|u [|z1 [|z2 [|o [|b [|br r]]]]]]; try done. simpl.
    by rewrite (proj2 (Z.eqb_neq c 92) (not_eq_sym Hc)). }
  rewrite Hat. by rewrite IH.
Qed.

Lemma strip_sgr_length k s : length (strip_sgr k s) ≤ length s.
Proof.
  revert k; induction s as [|c s IH]; intros k; [simpl; lia|].
  destruct k as [|k]; [|simpl; specialize (IH k); lia].
  rewrite strip_sgr_cons. destruct (sgr_at (c :: s)) as [m|]; simpl;
    [specialize (IH (m - 1))|specialize (IH 0)]; lia.
Qed.

Lemma replace_first_length at_ s : length (replace_first at_ s) ≤ length s.
Proof.
  induction s as [|c s IH]; simpl; [lia|].
  destruct (at_ (c :: s)); simpl; [rewrite length_drop; simpl|]; lia.
Qed.

(** [stripEsc] leaves text without an [ESC] code unit as it is; with
    [literal] the text must also have no backslash. *)
Theorem stripEsc_plain s :
  27%Z ∉ s →
  (stripEsc s false = s) ∧ (92%Z ∉ s → stripEsc s true = s).
Proof.
  intros H27. unfold stripEsc. rewrite strip_sgr_no_esc by done.
  split; [done|]. apply replace_first_lit_no_backslash.
Qed.

Lemma stripEsc_plain_witness :
  (27%Z ∉ [104%Z; 105%Z]) ∧
  stripEsc [104%Z; 105%Z] false = [104%Z; 105%Z] ∧
  stripEsc [104%Z; 105%Z] true = [104%Z; 105%Z].
Proof.
  assert (H : 27%Z ∉ [104%Z; 105%Z]) by (apply (bool_decide_unpack _); vm_compute; exact I).
  destruct (stripEsc_plain [104%Z; 105%Z] H) as [H1 H2].
  split; [exact H|split; [exact H1|]]. apply H2.
  apply (bool_decide_unpack _); vm_compute; exact I.
Defined.

(** Colouring a text with [esc(code, str, endcode)] and stripping the
    escapes again gives [stripEsc(str)], whenever [esc(code)] and
    [esc(endcode)] (by default [esc(0)]) are whole matches of the pattern
    of stripEsc, as for numeric codes and codes such as ['38;5;74']. *)
Theorem stripEsc_esc code str endcode literal :
  sgr_at (esc_code code) = Some (length (esc_code code)) →
  sgr_at (esc_code (default [48%Z] endcode)) =
    Some (length (esc_code (default [48%Z] endcode))) →
  stripEsc (esc code (Some str) endcode) literal = stripEsc str literal.
Proof.
  intros H1 H2. unfold stripEsc, esc.
  assert (HE : strip_sgr 0 (esc_code (default [48%Z] endcode)) = []).
  { pose proof (strip_sgr_full _ [] H2) as H. by rewrite app_nil_r in H. }
  rewrite strip_sgr_full by done.
  change (esc_code (default [48%Z] endcode)) with
    (27%Z :: (91%Z :: (default [48%Z] endcode ++ [109%Z]))).
  rewrite strip_sgr_app.
  change (27%Z :: (91%Z :: (default [48%Z] endcode ++ [109%Z]))) with
    (esc_code (default [48%Z] endcode)).
  by rewrite HE, app_nil_r.
Qed.

Lemma stripEsc_esc_witness :
  stripEsc (esc [51%Z; 56%Z; 59%Z; 53%Z; 59%Z; 55%Z; 52%Z] (Some [104%Z; 105%Z]) None)
    false = [104%Z; 105%Z].
Proof.
  rewrite (stripEsc_esc [51%Z; 56%Z; 59%Z; 53%Z; 59%Z; 55%Z; 52%Z]
             [104%Z; 105%Z] None false); [reflexivity|vm_compute; reflexivity|].
  vm_compute. reflexivity.
Defined.

(** [stripEsc] never makes a text longer: in [indent] the visible count
    is at most the hidden count. *)
Theorem stripEsc_length s literal : length (stripEsc s literal) ≤ length s.
Proof.
  unfold stripEsc. pose proof (strip_sgr_length 0 s).
  destruct literal; [|done].
  pose proof (replace_first_length lit_at (strip_sgr 0 s)). lia.
Qed.

(** The visible text of the prefix [print] puts before a message is
    ["[" + type + "] [" + file + ":" + line + "] "], each part with its own
    escapes removed. *)
Theorem print_trace_visible type file line :
  stripEsc (print_trace type file line) false =
    [91%Z] ++ stripEsc type false ++ [93%Z; 32%Z; 91%Z] ++
    stripEsc (file ++ 58%Z :: line) false ++ [93%Z; 32%Z].
Proof.
  unfold stripEsc, print_trace, esc, esc_code. simpl.
  rewrite strip_sgr_app. simpl. rewrite <- app_assoc. simpl.
  rewrite strip_sgr_app. simpl. reflexivity.
Qed.

(** ** indent *)

Lemma split_on_nonempty sep s : ∃ w ws, split_on sep s = w :: ws.
Proof.
  induction s as [|x s IH]; simpl; [by eexists _, _|].
  destruct (Z.eqb x sep); [by eexists _, _|].
  destruct IH as (w & ws & ->). by eexists _, _.
Qed.

Lemma split_on_two sep s :
  sep ∈ s → ∃ a b ws, split_on sep s = a :: b :: ws.
Proof.
  induction s as [|x s IH]; intros Hin; [by apply not_elem_of_nil in Hin|].
  simpl. destruct (Z.eqb_spec x sep) as [->|Hne].
  - destruct (split_on_nonempty sep s) as (w & ws & ->). by eexists _, _, _.
  - apply elem_of_cons in Hin as [->|Hin]; [done|].
    destruct (IH Hin) as (a & b & ws & ->). by eexists _, _, _.
Qed.

Lemma split_on_single sep s : sep ∉ s → split_on sep s = [s].
Proof.
  induction s as [|x s IH]; intros Hn; [done|].
  apply not_elem_of_cons in Hn as [Hx Hn]. simpl.
  rewrite (proj2 (Z.eqb_neq x sep) (not_eq_sym Hx)). by rewrite IH.
Qed.

Lemma indent_lines_pad_none cw vc d sf i l ls :
  (i ≠ 0 ∨ sf = false) → indent_lines None cw vc d sf i (l :: ls) = None.
Proof.
  intros H. simpl.
  replace (Nat.eqb i 0 && sf)%bool with false; [reflexivity|].
  destruct H as [H| ->]; [|by rewrite andb_false_r].
  by rewrite (proj2 (Nat.eqb_neq i 0) H).
Qed.

Lemma indent_lines_two cw vc d sf a b ls :
  indent_lines None cw vc d sf 0 (a :: b :: ls) = None.
Proof.
  destruct sf; [|by apply indent_lines_pad_none; right].
  cbn [indent_lines Nat.eqb andb].
  destruct cw as [w|]; [destruct (w <? _)%Z|]; try reflexivity;
    rewrite indent_lines_pad_none by (left; done); reflexivity.
Qed.

(** Without a global [multiply], [indent] throws a ReferenceError on every
    text with a line break, and on every text when [skipFirstLine] is
    [false]; a one-line text with the first line skipped comes back
    unchanged if it fits [consoleWidth] (or there is no width), and
    throws if it is wider. *)
Theorem indent_without_multiply cw text skipText sf :
  (10%Z ∈ text → indent None cw text skipText sf = None) ∧
  (sf = Some false → indent None cw text skipText sf = None) ∧
  (10%Z ∉ text → default true sf = true →
     indent None cw text skipText sf =
       match cw with
       | Some w => if (w <? Z.of_nat (length (stripEsc text false)))%Z
                   then None else Some text
       | None => Some text
       end).
Proof.
  unfold indent. split; [|split].
  - intros Hin. destruct (split_on_two _ _ Hin) as (a & b & ws & ->).
    by rewrite indent_lines_two.
  - intros ->. destruct (split_on_nonempty 10 text) as (w & ws & ->).
    cbn [default]. by rewrite indent_lines_pad_none by (right; done).
  - intros Hn Hsf. rewrite split_on_single by done. rewrite Hsf.
    cbn [indent_lines Nat.eqb andb].
    destruct cw as [w|]; [destruct (w <? _)%Z|]; reflexivity.
Qed.

Lemma indent_without_multiply_witness :
  indent None (Some 80%Z) [97%Z; 10%Z; 98%Z] [] None = None.
Proof.
  destruct (indent_without_multiply (Some 80%Z) [97%Z; 10%Z; 98%Z] [] None)
    as (H & _ & _).
  apply H. apply (bool_decide_unpack _). vm_compute. exact I.
Defined.

Lemma indent_lines_fit f cw vc d sf rest :
  ∀ i, i ≠ 0 →
  (∀ l w, l ∈ rest → cw = Some w →
     (Z.of_nat (length (stripEsc (f [32%Z] vc ++ l) false)) <= w)%Z) →
  indent_lines (Some f) cw vc d sf i rest =
    Some (map (fun l => f [32%Z] vc ++ l) rest).
Proof.
  induction rest as [|l rest IH]; intros i Hi Hfit; [done|].
  cbn [indent_lines].
  replace (Nat.eqb i 0 && sf)%bool with false
    by (by rewrite (proj2 (Nat.eqb_neq i 0) Hi)).
  cbn [fmap option_fmap option_map].
  rewrite (IH (S i)) by (done || (intros; apply Hfit; [set_solver|done])).
  destruct cw as [w|]; [|reflexivity].
  rewrite (proj2 (Z.ltb_ge _ _) (Hfit l w ltac:(set_solver) eq_refl)).
  reflexivity.
Qed.

(** With some global [multiply], when every line fits [consoleWidth]
    after padding, [indent] (first line skipped) keeps the first line and
    puts [multiply(' ', visibleCount)] before each following line, where
    [visibleCount] is the length of [skipText] without escapes. *)
Theorem indent_with_multiply f cw text skipText l0 rest :
  split_on 10 text = l0 :: rest →
  (∀ w, cw = Some w → Z.of_nat (length (stripEsc l0 false)) <= w)%Z →
  (∀ l w, l ∈ rest → cw = Some w →
     Z.of_nat (length (stripEsc
       (f [32%Z] (Z.of_nat (length (stripEsc skipText false))) ++ l) false)) <= w)%Z →
  indent (Some f) cw text skipText None =
    Some (join_on 10 (l0 :: map (fun l =>
      f [32%Z] (Z.of_nat (length (stripEsc skipText false))) ++ l) rest)).
Proof.
  intros Hs H0 Hrest. unfold indent. rewrite Hs.
  cbn [indent_lines default Nat.eqb andb].
  rewrite indent_lines_fit by done.
  destruct cw as [w|]; [|reflexivity].
  by rewrite (proj2 (Z.ltb_ge _ _) (H0 w eq_refl)).
Qed.

Lemma indent_with_multiply_witness :
  indent (Some (fun s n => concat (repeat s (Z.to_nat n)))) (Some 80%Z)
    [97%Z; 10%Z; 98%Z] [120%Z; 121%Z] None = Some [97%Z; 10%Z; 32%Z; 32%Z; 98%Z].
Proof.
  rewrite (indent_with_multiply (fun s n => concat (repeat s (Z.to_nat n)))
             (Some 80%Z) [97%Z; 10%Z; 98%Z] [120%Z; 121%Z] [97%Z] [[98%Z]]).
  - reflexivity.
  - reflexivity.
  - intros w [= <-]. vm_compute. discriminate.
  - intros l w Hl [= <-]. apply list_elem_of_singleton in Hl as ->.
    vm_compute. discriminate.
Defined.

(** ** popup *)

Local Open Scope string_scope.

(** An id that names an [Object.prototype] member and was never opened
    finds an inherited function in [open_popups]: both closing and opening
    such a popup throw a TypeError before anything is created. *)
Theorem popup_proto_name_throws id options j :
  id ∈ object_proto_names → open_popups j !! id = None →
  popup id options j = PopupTypeError j.
Proof.
  intros Hid Hn. unfold popup, destroy_current. rewrite Hn.
  rewrite bool_decide_eq_true_2 by done.
  by destruct options.
Qed.

Lemma popup_proto_name_throws_witness :
  popup (js "toString") None (mkJaneway ∅ ∅ []) = PopupTypeError (mkJaneway ∅ ∅ []).
Proof.
  apply popup_proto_name_throws; [|reflexivity].
  apply (bool_decide_unpack _). vm_compute. exact I.
Defined.

(** [popup] never removes an entry of [open_popups] nor forgets a widget,
    and every entry stays a created widget. *)
Theorem popup_preserves id options j j' r :
  popups_created j → popup id options j = PopupOk j' r →
  popups_created j' ∧ dom (open_popups j) ⊆ dom (open_popups j') ∧
  widgets j ⊆ widgets j'.
Proof.
  unfold popups_created, popup, destroy_current. intros Hc.
  destruct options as [o|].
  - destruct (open_popups j !! id) as [w0|] eqn:E;
      [|case_bool_decide; [discriminate|]];
      intros [= <- _]; cbn [open_popups widgets];
      (split; [|split]); [| |set_solver| | |set_solver].
    + intros id' w. rewrite lookup_insert_Some.
      intros [[_ <-]|[_ Hl]]; [set_solver|]. apply elem_of_union_r. eauto.
    + rewrite dom_insert_L. set_solver.
    + intros id' w. rewrite lookup_insert_Some.
      intros [[_ <-]|[_ Hl]]; [set_solver|]. apply elem_of_union_r. eauto.
    + rewrite dom_insert_L. set_solver.
  - destruct (open_popups j !! id) as [w0|] eqn:E;
      [|case_bool_decide; [discriminate|]];
      intros [= <- _]; cbn [open_popups widgets]; split_and!; eauto.
Qed.

Lemma popup_preserves_witness :
  popups_created (mkJaneway ∅ ∅ []) ∧
  popup (js "log") (Some (mkPopupOptions None [])) (mkJaneway ∅ ∅ []) =
    PopupOk (mkJaneway {[js "log" := 0]} {[0]} [CreateList 0
      (<[key_height := PNum 6]> (<[key_bottom := PNum 2]> ∅)) [];
      Append 0; SetFront 0; ScreenRender]) (Some 0) ∧
  popups_created (mkJaneway {[js "log" := 0]} {[0]} [CreateList 0
      (<[key_height := PNum 6]> (<[key_bottom := PNum 2]> ∅)) [];
      Append 0; SetFront 0; ScreenRender]).
Proof.
  assert (Hc : popups_created (mkJaneway ∅ ∅ [])).
  { intros id w. cbn [open_popups]. rewrite lookup_empty. discriminate. }
  assert (Hp : popup (js "log") (Some (mkPopupOptions None [])) (mkJaneway ∅ ∅ []) =
    PopupOk (mkJaneway {[js "log" := 0]} {[0]} [CreateList 0
      (<[key_height := PNum 6]> (<[key_bottom := PNum 2]> ∅)) [];
      Append 0; SetFront 0; ScreenRender]) (Some 0)).
  { vm_compute. reflexivity. }
  split; [done|]. split; [done|].
  exact (proj1 (popup_preserves _ _ _ _ _ Hc Hp)).
Defined.

(** Opening a popup (an id with its own entry or not named on
    [Object.prototype]) destroys the popup open under that id, if any,
    creates a new list widget, stores it under the id, appends it, brings
    it to the front and renders the screen, in this order.  Its position
    is the given one with [bottom] set to 2 and [height] to 6 where they
    are [null] or missing. *)
Theorem popup_open id o j :
  (open_popups j !! id = None → id ∉ object_proto_names) →
  let w := fresh (widgets j) in
  let p0 := default ∅ (opt_position o) in
  ∃ pos,
    popup id (Some o) j =
      PopupOk (mkJaneway (<[id := w]> (open_popups j)) ({[w]} ∪ widgets j)
        (ui j ++ match open_popups j !! id with Some w0 => [Destroy w0] | None => [] end
              ++ [CreateList w pos (opt_items o); Append w; SetFront w; ScreenRender]))
        (Some w) ∧
    (w ∉ widgets j) ∧
    pos !! key_bottom = (if loose_null (p0 !! key_bottom) then Some (PNum 2) else p0 !! key_bottom) ∧
    pos !! key_height = (if loose_null (p0 !! key_height) then Some (PNum 6) else p0 !! key_height) ∧
    (∀ k, k ≠ key_bottom → k ≠ key_height → pos !! k = p0 !! k).
Proof.
  intros Hid w p0. unfold popup, destroy_current.
  eexists. split.
  - destruct (open_popups j !! id) as [w0|] eqn:E.
    + cbn [open_popups widgets ui]. rewrite <- app_assoc. reflexivity.
    + rewrite bool_decide_eq_false_2 by auto. rewrite app_nil_l. reflexivity.
  - split; [apply is_fresh|]. fold p0.
    assert (Hbh : key_bottom ≠ key_height) by discriminate.
    fold key_bottom key_height.
    split; [|split].
    + destruct (loose_null (p0 !! key_bottom)) eqn:Eb.
      * destruct (loose_null (<[key_bottom:=PNum 2]> p0 !! key_height));
          simplify_map_eq; done.
      * destruct (loose_null (p0 !! key_height)); simplify_map_eq; done.
    + destruct (loose_null (p0 !! key_bottom)) eqn:Eb.
      * rewrite lookup_insert_ne in * |- * by done.
        destruct (loose_null (p0 !! key_height)); simplify_map_eq; done.
      * destruct (loose_null (p0 !! key_height)); simplify_map_eq; done.
    + intros k Hb Hh.
      destruct (loose_null (p0 !! key_bottom)),
               (loose_null _); simplify_map_eq; done.
Qed.

Lemma popup_open_witness :
  ∃ pos,
    popup (js "log") (Some (mkPopupOptions (Some {[key_bottom := PNum 0]}) [])) (mkJaneway {[js "log" := 3]} {[3]} []) =
      PopupOk (mkJaneway (<[js "log" := fresh ({[3]} : gset nat)]> {[js "log" := 3]})
                 ({[fresh ({[3]} : gset nat)]} ∪ {[3]})
        ([] ++ [Destroy 3] ++ [CreateList (fresh ({[3]} : gset nat)) pos []; Append (fresh ({[3]} : gset nat)); SetFront (fresh ({[3]} : gset nat)); ScreenRender]))
        (Some (fresh ({[3]} : gset nat))) ∧
    (fresh ({[3]} : gset nat) ∉ ({[3]} : gset nat)) ∧
    pos !! key_bottom = Some (PNum 0) ∧
    pos !! key_height = Some (PNum 6) ∧
    (∀ k, k ≠ key_bottom → k ≠ key_height → pos !! k = None).
Proof.
  destruct (popup_open (js "log") (mkPopupOptions (Some {[key_bottom := PNum 0]}) [])
              (mkJaneway {[js "log" := 3]} {[3]} [])) as (pos & H1 & H2 & H3 & H4 & H5).
  - intros Hn. exfalso. revert Hn. vm_compute. discriminate.
  - exists pos. cbn [open_popups widgets ui opt_position opt_items default] in *.
    rewrite lookup_singleton in H1.
    split; [exact H1|]. split; [exact H2|].
    split; [rewrite H3; reflexivity|]. split; [rewrite H4; reflexivity|].
    intros k Hb Hh. rewrite (H5 k Hb Hh). unfold id. by rewrite lookup_singleton_ne.
Defined.

(** Closing does not remove the entry: closing the same popup twice calls
    [destroy] twice on the same widget, and [open_popups] and the widgets
    stay as they were. *)
Theorem popup_close_twice id j w :
  open_popups j !! id = Some w →
  ∃ j1, popup id None j = PopupOk j1 None ∧
    popup id None j1 =
      PopupOk (mkJaneway (open_popups j) (widgets j) (ui j ++ [Destroy w; Destroy w])) None.
Proof.
  intros H. unfold popup, destroy_current. rewrite H.
  eexists. split; [reflexivity|]. cbn [open_popups widgets ui]. rewrite H.
  by rewrite <- app_assoc.
Qed.

Lemma popup_close_twice_witness :
  ∃ j1, popup (js "log") None (mkJaneway {[js "log" := 3]} {[3]} []) = PopupOk j1 None ∧
    popup (js "log") None j1 =
      PopupOk (mkJaneway {[js "log" := 3]} {[3]} ([] ++ [Destroy 3; Destroy 3])) None.
Proof.
  exact (popup_close_twice (js "log") (mkJaneway {[js "log" := 3]} {[3]} []) 3
           (lookup_singleton_eq _ _)).
Defined.

Local Close Scope string_scope.

(** ** LogList edge cases *)

Lemma reindex_from_noop refs i h :
  (∀ j r, refs !! j = Some r → ∃ l, h !! r = Some l ∧ index l = (i + Z.of_nat j)%Z) →
  reindex_from refs i h = h.
Proof.
  revert i. induction refs as [|a refs IH]; intros i H; [done|].
  cbn [reindex_from].
  destruct (H 0 a eq_refl) as (l & Hl & Hi).
  assert (Ha : alter (set_index i) a h = h).
  { apply map_eq. intros q. destruct (decide (q = a)) as [->|Hq].
    - rewrite lookup_alter_eq, Hl. simpl. f_equal.
      destruct l; unfold set_index; simpl in *. f_equal. lia.
    - by rewrite lookup_alter_ne by congruence. }
  rewrite Ha. apply IH. intros j r Hj.
  destruct (H (S j) r Hj) as (l' & Hl' & Hi'). exists l'. split; [done|]. lia.
Qed.

Lemma flashsort_single n : flashsort [n] = [n].
Proof. reflexivity. Qed.

Lemma flashsort_twice n : flashsort [n; n] = [n; n].
Proof.
  pose proof (merge_sort_Permutation Z.le [n; n]) as HP.
  unfold flashsort. remember (merge_sort Z.le [n; n]) as l eqn:El. clear El.
  assert (Hl : length l = 2) by (by rewrite HP).
  assert (Hall : ∀ x, x ∈ l → x = n).
  { intros x Hx. rewrite HP in Hx. set_solver. }
  destruct l as [|a [|b [|]]]; try discriminate.
  rewrite (Hall a), (Hall b) by set_solver. done.
Qed.

Lemma delete_ge_len {A} (xs : list A) p : length xs ≤ p → delete p xs = xs.
Proof.
  revert p. induction xs as [|x xs IH]; intros [|p] Hp; simpl in *; try done; [lia|].
  f_equal. apply IH. lia.
Qed.

Lemma delete_delete_same {A} (xs : list A) p :
  delete p (delete p xs) = take p xs ++ drop (S (S p)) xs.
Proof.
  revert p. induction xs as [|x xs IH]; intros [|p]; simpl; try done.
  - by destruct xs.
  - by rewrite IH.
Qed.

Lemma set_heap_same s : set_heap (heap s) s = s.
Proof. by destruct s. Qed.

Lemma jsget_out xs k :
  (k < 0 ∨ Z.of_nat (length xs) <= k)%Z → jsget xs k = None.
Proof.
  unfold jsget. intros [Hk|Hk].
  - by rewrite (proj2 (Z.leb_gt 0 k) Hk).
  - rewrite (proj2 (Z.leb_le 0 k)) by lia. apply lookup_ge_None_2. lia.
Qed.

(** [reIndex] with a negative [start] throws before changing anything; on a
    buffer that already satisfies the index invariant, any other start
    changes nothing. *)
Theorem reIndex_edges st s :
  ((st < 0)%Z → reIndex (Some st) s = TypeError s) ∧
  (index_invariant s → (0 <= st)%Z → reIndex (Some st) s = Ok s).
Proof.
  unfold reIndex. cbv [from_option id]. split.
  - intros H. by rewrite (proj2 (Z.ltb_lt _ _) H).
  - intros Hinv H. rewrite (proj2 (Z.ltb_ge _ _) H).
    rewrite reindex_from_noop; [by rewrite set_heap_same|].
    intros j r Hj. rewrite lookup_drop in Hj.
    destruct (Hinv _ _ Hj) as (l & Hl & Hi). exists l. split; [done|]. lia.
Qed.

Lemma reIndex_edges_witness :
  reIndex (Some (-1)%Z) bufABC = TypeError bufABC ∧
  reIndex (Some 1%Z) bufABC = Ok bufABC.
Proof.
  split.
  - apply (proj1 (reIndex_edges (-1)%Z bufABC)). lia.
  - apply (proj2 (reIndex_edges 1%Z bufABC)); [|lia].
    unfold bufABC. repeat apply pushLine_invariant. apply initial_invariant.
Defined.

(** [reIndex()] repairs the indices of any buffer whose entries are
    distinct LogLine objects: afterwards [list[i].index == i] holds, and
    the list itself is unchanged. *)
Theorem reIndex_repairs s :
  NoDup (lines s) → (∀ r, r ∈ lines s → is_Some (heap s !! r)) →
  ∃ s', reIndex None s = Ok s' ∧ index_invariant s' ∧ lines s' = lines s.
Proof.
  intros Hnd Hin. eexists. split; [reflexivity|]. split; [|reflexivity].
  apply (reIndex_invariant None s); [done|done| |reflexivity].
  intros i r Hi. cbn in Hi. lia.
Qed.

Lemma reIndex_repairs_witness :
  ∃ s', reIndex None (mkLogList {[0 := lineB; 1 := lineA]} [1; 0] None None false [] [])
          = Ok s' ∧ index_invariant s' ∧ lines s' = [1; 0].
Proof.
  apply (reIndex_repairs (mkLogList {[0 := lineB; 1 := lineA]} [1; 0] None None false [] [])).
  - cbn. repeat constructor; set_solver.
  - cbn. intros r Hr. apply elem_of_cons in Hr as [->|Hr];
      [|apply list_elem_of_singleton in Hr as ->]; vm_compute; eexists; reflexivity.
Defined.

(** [clearLines([n])] with a negative [n]: [splice(n, 1)] removes the line
    [-n] positions from the end (the first one if [-n] exceeds the length),
    [box.deleteLine(n)] is called, then [reIndex(n)] throws. *)
Theorem clearLines_negative n s :
  (n < 0)%Z →
  clearLines [n] s =
    TypeError (set_lines
      (delete (Z.to_nat (Z.max (Z.of_nat (length (lines s)) + n) 0)) (lines s))
      (emit [DeleteLine n] s)).
Proof.
  intros Hn. unfold clearLines. rewrite flashsort_single.
  unfold splice_remove, reIndex. cbn.
  destruct (Z.ltb_spec n 0); [reflexivity|lia].
Qed.

Lemma clearLines_negative_witness :
  clearLines [(-1)%Z] bufABC =
    TypeError (set_lines
      (delete (Z.to_nat (Z.max (Z.of_nat (length (lines bufABC)) + (-1)) 0)) (lines bufABC))
      (emit [DeleteLine (-1)%Z] bufABC)).
Proof. apply clearLines_negative. lia. Defined.

(** [clearLines([i])] with [i] past the end removes nothing but still calls
    [box.deleteLine(i)]. *)
Theorem clearLines_past_end i s :
  (Z.of_nat (length (lines s)) <= i)%Z →
  clearLines [i] s = Ok (emit [DeleteLine i] s).
Proof.
  intros Hi. unfold clearLines. rewrite flashsort_single.
  unfold splice_remove, reIndex. cbn.
  destruct (Z.ltb_spec i 0); [lia|].
  destruct s as [h xs sl lsl sd p e]; cbn [lines heap emit set_lines set_heap] in *.
  rewrite delete_ge_len by lia. rewrite drop_ge by lia. reflexivity.
Qed.

Lemma clearLines_past_end_witness :
  clearLines [3%Z] bufABC = Ok (emit [DeleteLine 3%Z] bufABC).
Proof. apply clearLines_past_end. vm_compute. discriminate. Defined.

(** A repeated index is not deduplicated: [clearLines([i, i])] calls
    [splice(i, 1)] twice, which removes the lines at positions [i] and
    [i + 1], and deletes box row [i] twice. *)
Theorem clearLines_duplicate i s :
  (0 <= i)%Z →
  ∃ s', clearLines [i; i] s = Ok s' ∧
    lines s' = take (Z.to_nat i) (lines s) ++ drop (S (S (Z.to_nat i))) (lines s) ∧
    effects s' = effects s ++ [DeleteLine i; DeleteLine i].
Proof.
  intros Hi. unfold clearLines. rewrite flashsort_twice.
  unfold splice_remove, reIndex. cbn.
  destruct (Z.ltb_spec i 0); [lia|].
  eexists. split; [reflexivity|].
  destruct s as [h xs sl lsl sd p e]; cbn [lines heap emit set_lines set_heap effects].
  split; [apply delete_delete_same|]. by rewrite <- app_assoc.
Qed.

Lemma clearLines_duplicate_witness :
  ∃ s', clearLines [0%Z; 0%Z] bufABC = Ok s' ∧
    lines s' = take 0 (lines bufABC) ++ drop 2 (lines bufABC) ∧
    effects s' = effects bufABC ++ [DeleteLine 0%Z; DeleteLine 0%Z].
Proof. apply (clearLines_duplicate 0%Z bufABC). lia. Defined.

(** [removeLine] and [click] on an index that addresses no line do nothing
    at all (no render either). *)
Theorem removeLine_click_missing k x y s :
  (k < 0 ∨ Z.of_nat (length (lines s)) <= k)%Z →
  removeLine k s = Ok s ∧ click k x y s = s.
Proof.
  intros Hk. unfold removeLine, click. by rewrite jsget_out.
Qed.

Lemma removeLine_click_missing_witness :
  removeLine 3%Z bufABC = Ok bufABC ∧ click 3%Z 0%Z 0%Z bufABC = bufABC.
Proof. apply removeLine_click_missing. right. vm_compute. discriminate. Defined.

(** A line pushed with [defer] and removed before its [setImmediate]
    callback runs is still written to the box: the callback calls
    [_setLine] with the removed line's index, after [box.deleteLine]. *)
Theorem removeLine_deferred_still_set line s :
  children line = [] →
  ∃ s2, removeLine (Z.of_nat (length (lines s))) (pushLine line true s) = Ok s2 ∧
    lines s2 = lines s ∧
    ∃ E, effects (runDeferred s2) =
      effects s ++ [DeleteLine (Z.of_nat (length (lines s))); Render] ++ E ++
      [SetLine (Z.of_nat (length (lines s))) (sanitize (text line)); ScrollAlong None].
Proof.
  intros Hc. set (r := fresh (dom (heap s))).
  assert (Hp : pushLine line true s =
    mkLogList (<[r := set_index (Z.of_nat (length (lines s))) line]> (heap s))
      (lines s ++ [r]) (selectedLine s) (list_selectedLine s) (scrollDown s)
      (pending s ++ [r]) (effects s)) by reflexivity.
  rewrite Hp. clear Hp.
  assert (Hg : jsget (lines s ++ [r]) (Z.of_nat (length (lines s))) = Some r).
  { unfold jsget. rewrite (proj2 (Z.leb_le 0 _)) by lia. rewrite Nat2Z.id.
    by rewrite lookup_app_r, Nat.sub_diag by lia. }
  unfold removeLine. cbn [lines]. rewrite Hg.
  unfold getAllIndices. cbn [heap allIndices]. rewrite lookup_insert_eq.
  cbn [children set_index index]. rewrite Hc. cbn [map concat].
  unfold clearLines. rewrite flashsort_single, reverse_singleton.
  unfold splice_remove, reIndex. cbn [head foldl from_option id lines emit set_lines].
  destruct (Z.ltb_spec (Z.of_nat (length (lines s))) 0); [lia|].
  rewrite Nat2Z.id.
  replace (delete (length (lines s)) (lines s ++ [r])) with (lines s)
    by (by rewrite delete_middle, app_nil_r).
  rewrite drop_ge by lia. cbn [reindex_from].
  eexists. split; [reflexivity|]. split; [reflexivity|].
  unfold runDeferred, set_lines, emit, set_heap, set_pending. cbn [effects pending heap lines].
  rewrite flat_map_app. cbn [flat_map]. rewrite lookup_insert_eq.
  match goal with |- context [flat_map ?f (pending s)] => exists (flat_map f (pending s)) end.
  rewrite app_nil_r, <- !app_assoc. reflexivity.
Qed.


Lemma removeLine_deferred_still_set_witness :
  ∃ s2, removeLine (Z.of_nat (length (lines bufA))) (pushLine lineB true bufA) = Ok s2 ∧
    lines s2 = lines bufA ∧
    ∃ E, effects (runDeferred s2) =
      effects bufA ++ [DeleteLine (Z.of_nat (length (lines bufA))); Render] ++ E ++
      [SetLine (Z.of_nat (length (lines bufA))) (sanitize (text lineB)); ScrollAlong None].
Proof. apply (removeLine_deferred_still_set lineB bufA). reflexivity. Defined.

(** [insertAfter] after the last line puts the line where [pushLine]
    would, with the same heap and list; the only difference is the box
    call: [insertLine] instead of [setLine], and no [scrollAlong]. *)
Theorem insertAfter_last_is_push line s :
  insertAfter line (Z.of_nat (length (lines s)) - 1) s =
    Ok (emit [InsertLine (Z.of_nat (length (lines s))) (sanitize (text line))]
          (set_lines (lines (pushLine line false s))
             (set_heap (heap (pushLine line false s)) s))).
Proof.
  unfold insertAfter.
  replace (Z.of_nat (length (lines s)) - 1 + 1)%Z with (Z.of_nat (length (lines s))) by lia.
  rewrite (proj2 (Z.ltb_ge _ 0)) by lia. rewrite Z.ltb_irrefl. cbn [orb].
  rewrite Nat2Z.id, take_ge, drop_ge by lia.
  unfold alloc. cbv beta iota zeta.
  rewrite drop_ge by (rewrite length_app; simpl; lia).
  cbn [bump foldl]. destruct s; reflexivity.
Qed.








